(** * Master's League backend: schedule store, round-robin generator and
      weekly/season aggregation (app.py), embedded and verified.

    The Python functions are embedded as functions over an error monad
    ([result]): every operation of the source that can raise (list indexing,
    [%], attribute access on a provider object, [json.load]) is written out
    with the exception it raises.  Dictionaries are [gmap]s, Python integers
    are [Z], provider scores are rationals. *)

From stdpp Require Import gmap strings list pretty.
From Stdlib Require Import QArith Ascii.

Open Scope Z_scope.

(** ** Python runtime fragment *)

Module Py.

Inductive exn : Type :=
| IndexError
| ZeroDivisionError
| AttributeError
| JSONDecodeError
| ProviderError (msg : string).

Inductive result (A : Type) : Type :=
| Ok (a : A)
| Raise (e : exn).
Arguments Ok {A} a.
Arguments Raise {A} e.

#[global] Instance result_ret : MRet result := λ A a, Ok a.
#[global] Instance result_bind : MBind result := λ A B f m,
  match m with
  | Ok a => f a
  | Raise e => Raise e
  end.

(** [for x in xs: s = body(s, x)] with the loop-carried state explicit. *)
Fixpoint for_in {A S : Type} (xs : list A) (body : S → A → result S) (s : S)
  : result S :=
  match xs with
  | [] => Ok s
  | x :: xs' => s' ← body s x; for_in xs' body s'
  end.

(** [range(a, b)] *)
Definition range (a b : Z) : list Z := seqZ a (b - a).

(** [a % b] on integers: floor modulo, [ZeroDivisionError] when [b] is 0. *)
Definition mod_ (a b : Z) : result Z :=
  if b =? 0 then Raise ZeroDivisionError else Ok (a `mod` b).

(** [a // b] on integers. *)
Definition floordiv (a b : Z) : result Z :=
  if b =? 0 then Raise ZeroDivisionError else Ok (a `div` b).

(** [l[i]]: negative indices count from the end, anything outside
    [-len, len) raises [IndexError]. *)
Definition getitem {A} (l : list A) (i : Z) : result A :=
  let len := Z.of_nat (length l) in
  let j := if i <? 0 then len + i else i in
  if (0 <=? j) && (j <? len) then
    match l !! Z.to_nat j with
    | Some x => Ok x
    | None => Raise IndexError
    end
  else Raise IndexError.

(** A slice bound is clamped into [0, len]; slices never raise. *)
Definition clamp (len : nat) (k : Z) : nat :=
  let len := Z.of_nat len in
  Z.to_nat (if k <? 0 then Z.max (len + k) 0 else Z.min k len).

(** [l[k:]] *)
Definition slice_from {A} (l : list A) (k : Z) : list A :=
  drop (clamp (length l) k) l.

(** [l[:k]] *)
Definition slice_to {A} (l : list A) (k : Z) : list A :=
  take (clamp (length l) k) l.

(** [str(i)] for an integer. *)
Definition str (i : Z) : string := pretty i.

End Py.
Import Py.

(** ** Data model *)

(** A matchup is the two-element list [[t1, t2]] of team ids. *)
Abbreviation Matchup := (list Z).

(** [{week_string: [[team_id, team_id], ...]}] *)
Abbreviation Schedule := (gmap string (list Matchup)).

(** ** RoundRobinGenerator *)

(** [teams = team_ids.copy(); if n % 2 == 1: teams.append(None)];
    [None] is the bye. *)
Definition bye_padded (team_ids : list Z) : list (option Z) :=
  let n := Z.of_nat (length team_ids) in
  let teams := Some <$> team_ids in
  if n `mod` 2 =? 1 then teams ++ [None] else teams.

(** [[teams[0]] + teams[1:][-(round_idx):] + teams[1:][:-(round_idx)]
     if round_idx else teams] *)
Definition rotated_teams (teams : list (option Z)) (round_idx : Z)
  : result (list (option Z)) :=
  if round_idx =? 0 then Ok teams
  else
    t0 ← getitem teams 0;
    Ok ([t0] ++ slice_from (slice_from teams 1) (- round_idx)
             ++ slice_to (slice_from teams 1) (- round_idx)).

(** The inner loop: [for i in range(n // 2)], appending [[t1, t2]] when neither
    side is the bye. *)
Definition pair_up (rotated : list (option Z)) (n : Z) : result (list Matchup) :=
  half ← floordiv n 2;
  for_in (range 0 half)
    (λ matchups i,
       t1 ← getitem rotated i;
       t2 ← getitem rotated (n - 1 - i);
       match t1, t2 with
       | Some a, Some b => Ok (matchups ++ [[a; b]])
       | _, _ => Ok matchups
       end)
    [].

(** The body of the outer loop for one [week]. *)
Definition week_matchups (teams : list (option Z)) (week : Z)
  : result (list Matchup) :=
  let n := Z.of_nat (length teams) in
  round_idx ← mod_ (week - 1) (n - 1);
  rotated ← rotated_teams teams round_idx;
  pair_up rotated n.

Definition generate_round_robin (team_ids : list Z) (weeks : Z) : result Schedule :=
  let teams := bye_padded team_ids in
  for_in (range 1 (weeks + 1))
    (λ (schedule : Schedule) week,
       matchups ← week_matchups teams week;
       Ok (<[str week := matchups]> schedule))
    ∅.


(** ** JSON values and the decoder used by [load_schedule] *)

Module Json.

#[warnings="-register-all"]
Inductive json : Type :=
| JNull
| JBool (b : bool)
| JInt (z : Z)
| JStr (s : string)
| JList (l : list json)
| JDict (d : gmap string json).

Inductive token : Type :=
| TLBrace | TRBrace | TLBrack | TRBrack | TColon | TComma
| TStr (s : string) | TInt (z : Z) | TTrue | TFalse | TNull.

(** The double-quote character. *)
Definition dquote : Ascii.ascii := Ascii.ascii_of_nat 34.

(** JSON whitespace: space, tab, line feed, carriage return. *)
Definition is_ws (c : Ascii.ascii) : bool :=
  let n := Ascii.nat_of_ascii c in
  (n =? 32)%nat || (n =? 9)%nat || (n =? 10)%nat || (n =? 13)%nat.

Definition is_digit (c : Ascii.ascii) : bool :=
  let n := Ascii.nat_of_ascii c in (48 <=? n)%nat && (n <=? 57)%nat.

Definition digit_value (c : Ascii.ascii) : Z := Z.of_nat (Ascii.nat_of_ascii c) - 48.

(** Characters of a string literal up to the closing quote. *)
Fixpoint read_string (cs : list Ascii.ascii) (acc : string)
  : option (string * list Ascii.ascii) :=
  match cs with
  | [] => None
  | c :: cs' =>
      if Ascii.eqb c dquote then Some (acc, cs')
      else if Ascii.eqb c "\"%char then None
      else read_string cs' (acc +:+ String.String c String.EmptyString)
  end.

(** Digits of an integer literal, most significant first. *)
Fixpoint read_digits (cs : list Ascii.ascii) (acc : Z) : Z * list Ascii.ascii :=
  match cs with
  | c :: cs' => if is_digit c then read_digits cs' (10 * acc + digit_value c)
                else (acc, cs)
  | [] => (acc, [])
  end.

(** An integer literal without sign: one digit at least, no leading zero. *)
Definition read_nat (cs : list Ascii.ascii) : option (Z * list Ascii.ascii) :=
  match cs with
  | c :: cs' =>
      if Ascii.eqb c "0"%char then
        match cs' with
        | d :: _ => if is_digit d then None else Some (0, cs')
        | [] => Some (0, cs')
        end
      else if is_digit c then Some (read_digits cs 0)
      else None
  | [] => None
  end.

Definition strip_prefix (p : string) (cs : list Ascii.ascii) : option (list Ascii.ascii) :=
  let p := String.list_ascii_of_string p in
  if decide (take (length p) cs = p) then Some (drop (length p) cs) else None.

Fixpoint tokens (fuel : nat) (cs : list Ascii.ascii) : option (list token) :=
  match fuel with
  | O => None
  | S fuel =>
      match cs with
      | [] => Some []
      | c :: cs' =>
          let punct t := (t ::.) <$> tokens fuel cs' in
          if is_ws c then tokens fuel cs'
          else if Ascii.eqb c "{"%char then punct TLBrace
          else if Ascii.eqb c "}"%char then punct TRBrace
          else if Ascii.eqb c "["%char then punct TLBrack
          else if Ascii.eqb c "]"%char then punct TRBrack
          else if Ascii.eqb c ":"%char then punct TColon
          else if Ascii.eqb c ","%char then punct TComma
          else if Ascii.eqb c dquote then
            '(s, rest) ← read_string cs' String.EmptyString;
            (TStr s ::.) <$> tokens fuel rest
          else if Ascii.eqb c "-"%char then
            '(z, rest) ← read_nat cs';
            (TInt (- z) ::.) <$> tokens fuel rest
          else if is_digit c then
            '(z, rest) ← read_nat cs;
            (TInt z ::.) <$> tokens fuel rest
          else if Ascii.eqb c "t"%char then
            rest ← strip_prefix "true" cs; (TTrue ::.) <$> tokens fuel rest
          else if Ascii.eqb c "f"%char then
            rest ← strip_prefix "false" cs; (TFalse ::.) <$> tokens fuel rest
          else if Ascii.eqb c "n"%char then
            rest ← strip_prefix "null" cs; (TNull ::.) <$> tokens fuel rest
          else None
      end
  end.

(** What the parser is in the middle of: a value, the elements of an array,
    or the members of an object. *)
Inductive goal : Type :=
| GValue
| GElems (acc : list json)
| GMembers (acc : gmap string json).

Fixpoint parse (fuel : nat) (g : goal) (ts : list token)
  : option (json * list token) :=
  match fuel with
  | O => None
  | S fuel =>
      match g with
      | GValue =>
          match ts with
          | TNull :: r => Some (JNull, r)
          | TTrue :: r => Some (JBool true, r)
          | TFalse :: r => Some (JBool false, r)
          | TInt z :: r => Some (JInt z, r)
          | TStr s :: r => Some (JStr s, r)
          | TLBrack :: TRBrack :: r => Some (JList [], r)
          | TLBrack :: r => parse fuel (GElems []) r
          | TLBrace :: TRBrace :: r => Some (JDict ∅, r)
          | TLBrace :: r => parse fuel (GMembers ∅) r
          | _ => None
          end
      | GElems acc =>
          match parse fuel GValue ts with
          | Some (v, TComma :: r) => parse fuel (GElems (acc ++ [v])) r
          | Some (v, TRBrack :: r) => Some (JList (acc ++ [v]), r)
          | _ => None
          end
      | GMembers acc =>
          match ts with
          | TStr k :: TColon :: r =>
              match parse fuel GValue r with
              | Some (v, TComma :: r') => parse fuel (GMembers (<[k := v]> acc)) r'
              | Some (v, TRBrace :: r') => Some (JDict (<[k := v]> acc), r')
              | _ => None
              end
          | _ => None
          end
      end
  end.

(** [json.loads] on the fragment schedules are written in: objects, arrays,
    integers, escape-free strings and the three literals, with a repeated key
    keeping its last value.  Text outside this fragment (fractions, exponents,
    escapes) is not covered and is reported as undecodable. *)
Definition loads (text : string) : result json :=
  let cs := String.list_ascii_of_string text in
  match tokens (S (length cs)) cs with
  | Some ts =>
      match parse (2 * length ts + 2) GValue ts with
      | Some (v, []) => Ok v
      | _ => Raise JSONDecodeError
      end
  | None => Raise JSONDecodeError
  end.

(** [s] between double quotes, as a key or string is written in a file. *)
Definition quoted (s : string) : string :=
  String.String dquote (s +:+ String.String dquote String.EmptyString).

(** A schedule as the JSON value [jsonify]/[json.dump] see. *)
Definition of_schedule (s : Schedule) : json :=
  JDict ((λ ms : list Matchup, JList ((λ p : Matchup, JList (JInt <$> p)) <$> ms)) <$> s).

End Json.
Import Json.

(** ** ScheduleStore *)

Definition SCHEDULE_FILE : string := "schedule.json".

(** The files of the working directory: path to text. *)
Abbreviation Files := (gmap string string).

(** The literal returned by [load_schedule] when no file exists. *)
Definition default_schedule : Schedule :=
  list_to_map
    [ ("1",  [[1;2];[3;4];[5;6];[7;8];[9;10]]);
      ("2",  [[1;3];[2;5];[4;7];[6;9];[8;10]]);
      ("3",  [[1;4];[2;6];[3;8];[5;9];[7;10]]);
      ("4",  [[1;5];[2;7];[3;9];[4;6];[8;10]]);
      ("5",  [[1;6];[2;8];[3;10];[4;5];[7;9]]);
      ("6",  [[1;7];[2;9];[3;5];[4;8];[6;10]]);
      ("7",  [[1;8];[2;10];[3;6];[4;9];[5;7]]);
      ("8",  [[1;9];[2;4];[3;7];[5;10];[6;8]]);
      ("9",  [[1;10];[2;3];[4;10];[5;8];[6;7]]);
      ("10", [[1;2];[3;4];[5;6];[7;8];[9;10]]);
      ("11", [[1;3];[2;5];[4;7];[6;9];[8;10]]);
      ("12", [[1;4];[2;6];[3;8];[5;9];[7;10]]);
      ("13", [[1;5];[2;7];[3;9];[4;6];[8;10]]) ].

Section schedule_store.
(** [json.load] is the library's; the store is verified for any decoder. *)
Variable json_load : string → result json.

Definition load_schedule (fs : Files) : result json :=
  match fs !! SCHEDULE_FILE with
  | Some text => json_load text
  | None => Ok (of_schedule default_schedule)
  end.

(** [GET /api/schedule]: no handler around [load_schedule]. *)
Definition get_schedule (fs : Files) : result json :=
  schedule ← load_schedule fs;
  Ok schedule.
End schedule_store.

(** ** League data provider *)

(** A side of a box score: the provider's team object, or a placeholder that
    has no [team_id] attribute (a side left unfilled by the provider). *)
Inductive team_slot : Type :=
| TeamObj (team_id : Z)
| NoTeam.

(** [slot.team_id] *)
Definition team_id_of (slot : team_slot) : result Z :=
  match slot with
  | TeamObj i => Ok i
  | NoTeam => Raise AttributeError
  end.

Record BoxScore : Type := {
  home_team : team_slot;
  home_score : Q;
  away_team : team_slot;
  away_score : Q;
}.

(** [league.current_week] and [league.box_scores(week)]; the latter may raise. *)
Record League : Type := {
  current_week : Z;
  box_scores : Z → result (list BoxScore);
}.

Record WeeklyResult : Type := {
  week : Z;
  scores : gmap Z Q;
  espnMatchups : list Matchup;
}.

Definition REGULAR_SEASON_WEEKS : Z := 13.

(** ** Provider calls and console output as a trace *)

Inductive event : Type :=
| Fetch (week : Z)
| Print (week : Z) (e : exn).

(** Computations that may raise and that extend the trace of events. *)
Definition io (A : Type) : Type := list event → result A * list event.

#[global] Instance io_ret : MRet io := λ A a tr, (Ok a, tr).
#[global] Instance io_bind : MBind io := λ A B f m tr,
  match m tr with
  | (Ok a, tr') => f a tr'
  | (Raise e, tr') => (Raise e, tr')
  end.

Definition emit (ev : event) : io () := λ tr, (Ok (), tr ++ [ev]).

Definition lift {A} (r : result A) : io A := λ tr, (r, tr).

(** [try: body / except Exception as e: handler(e)] *)
Definition try_except {A} (body : io A) (handler : exn → io A) : io A := λ tr,
  match body tr with
  | (Ok a, tr') => (Ok a, tr')
  | (Raise e, tr') => handler e tr'
  end.

Fixpoint for_io {A S : Type} (xs : list A) (body : S → A → io S) (s : S) : io S :=
  match xs with
  | [] => mret s
  | x :: xs' => s' ← body s x; for_io xs' body s'
  end.

(** ** WeeklyAggregator *)

(** [score > 0] *)
Definition positive_score (score : Q) : bool := negb (Qle_bool score 0).

(** The loop of [get_weekly_data] over the fetched box scores. *)
Definition collect_boxes (boxes : list BoxScore)
  : result (gmap Z Q * list Matchup) :=
  for_in boxes
    (λ '(scores, espn_matchups) box,
       home_id ← team_id_of (home_team box);
       away_id ← team_id_of (away_team box);
       Ok (<[away_id := away_score box]> (<[home_id := home_score box]> scores),
           espn_matchups ++ [[home_id; away_id]]))
    (∅, []).

Definition get_weekly_data (league : League) (week : Z) : io WeeklyResult :=
  emit (Fetch week);;
  boxes ← lift (box_scores league week);
  '(scores, espn_matchups) ← lift (collect_boxes boxes);
  mret {| week := week; scores := scores; espnMatchups := espn_matchups |}.

(** ** SeasonAggregator *)

(** [any(score > 0 for score in week_data["scores"].values())] *)
Definition any_positive (scores : gmap Z Q) : bool :=
  existsb positive_score (map_to_list scores).*2.

Definition get_all_weekly_data (league : League) : io (list WeeklyResult) :=
  let current_week := Z.min (current_week league) REGULAR_SEASON_WEEKS in
  for_io (range 1 (current_week + 1))
    (λ weeks week,
       try_except
         (week_data ← get_weekly_data league week;
          if any_positive (scores week_data) then mret (weeks ++ [week_data])
          else mret weeks)
         (λ e, emit (Print week e);; mret weeks))
    [].

(** ** Vocabulary of the specification *)

(** A pair lists two distinct team ids. *)
Definition distinct_pair (p : Matchup) : Prop := ∃ a b, p = [a; b] ∧ a ≠ b.

(** Number of pairs of a week in which team [t] appears. *)
Definition appearances (t : Z) (ms : list Matchup) : nat :=
  length (filter (λ p, t ∈ p) ms).

(** The invariant of one week: every pair is of two distinct teams and a team
    appears in at most one pair. *)
Definition week_invariant (ms : list Matchup) : Prop :=
  Forall distinct_pair ms ∧ ∀ t, (appearances t ms ≤ 1)%nat.

Definition schedule_invariant (s : Schedule) : Prop :=
  map_Forall (λ _ ms, week_invariant ms) s.

(** The pair [p] is the meeting of [a] and [b], in either order. *)
Definition meets (a b : Z) (p : Matchup) : Prop := p = [a; b] ∨ p = [b; a].

#[global] Instance meets_dec a b p : Decision (meets a b p).
Proof. unfold meets. apply _. Defined.

(** Number of meetings of [a] and [b] in a week. *)
Definition games_between (a b : Z) (ms : list Matchup) : nat :=
  length (filter (meets a b) ms).

(** Team [t] has a bye in a week when no pair of the week lists it. *)
Definition has_bye (t : Z) (ms : list Matchup) : Prop := t ∉ mjoin ms.

#[global] Instance has_bye_dec t ms : Decision (has_bye t ms).
Proof. unfold has_bye. apply _. Defined.

(** The matchups a schedule holds for week [w] (none when the week is absent). *)
Definition week_of (s : Schedule) (w : Z) : list Matchup :=
  default [] (s !! str w).

(** ** Pure view of the generator, used in the proofs *)

(** The two sides of a pairing, kept when neither is the bye. *)
Definition both (p : option Z * option Z) : option Matchup :=
  match p with
  | (Some a, Some b) => Some [a; b]
  | _ => None
  end.

(** Position [i] against position [n - 1 - i], for the first half of [l]. *)
Definition fold_pairs (l : list (option Z)) : list (option Z * option Z) :=
  let h := (length l / 2)%nat in
  zip (take h l) (reverse (drop h l)).

(** The circle after [r] rounds: the head stays, the others move [r] places
    to the right. *)
Definition circle (teams : list (option Z)) (r : nat) : list (option Z) :=
  match teams with
  | [] => []
  | t0 :: others => t0 :: rotate (length others - r) others
  end.

(** The round played in week [w] by [n] slots. *)
Definition round_of (n : nat) (w : Z) : nat :=
  Z.to_nat ((w - 1) `mod` (Z.of_nat n - 1)).

Definition round_matchups (teams : list (option Z)) (r : nat) : list Matchup :=
  omap both (fold_pairs (circle teams r)).

(** [a mod m] for [a < 2 * m]. *)
Definition wrap (m a : nat) : nat := if decide (a < m)%nat then a else (a - m)%nat.

(** The position, in round [r] of a circle of [m + 1] slots, of the team that
    starts at position [q]. *)
Definition seat (m r q : nat) : nat :=
  match q with
  | O => O
  | S u => S (wrap m (u + r))
  end.

(** The schedule built by the outer loop. *)
Definition schedule_of (teams : list (option Z)) (weeks : Z) : Schedule :=
  foldl (λ s w, <[str w := round_matchups teams (round_of (length teams) w)]> s)
        ∅ (seqZ 1 weeks).

(** The two sides of a list of pairings, flattened. *)
Definition sides (ps : list (option Z * option Z)) : list (option Z) :=
  ps ≫= λ p, [p.1; p.2].

(** [x] and [y] sit across each other in [l]: their positions add up to the
    last index. *)
Definition across (l : list (option Z)) (x y : option Z) : Prop :=
  ∃ i j, l !! i = Some x ∧ l !! j = Some y ∧ (i + j = length l - 1)%nat.

(** ** Pure view of the aggregators, used in the proofs *)

(** What [get_weekly_data] returns or raises for week [w], the trace aside. *)
Definition week_outcome (league : League) (w : Z) : result WeeklyResult :=
  boxes ← box_scores league w;
  '(scores, espn_matchups) ← collect_boxes boxes;
  Ok {| week := w; scores := scores; espnMatchups := espn_matchups |}.

(** The result of week [w] when the week does not fail and passes the
    inclusion rule of the source, [any(score > 0 ...)]. *)
Definition included (league : League) (w : Z) : option WeeklyResult :=
  match week_outcome league w with
  | Ok r => if any_positive (scores r) then Some r else None
  | Raise _ => None
  end.

(** The events of one iteration of the season loop. *)
Definition week_events (league : League) (w : Z) : list event :=
  Fetch w :: match week_outcome league w with
             | Ok _ => []
             | Raise e => [Print w e]
             end.

(** [min(league.current_week, REGULAR_SEASON_WEEKS)] *)
Definition upper_bound (league : League) : Z :=
  Z.min (current_week league) REGULAR_SEASON_WEEKS.

(** The weeks requested from the provider, in the order of the requests. *)
Definition fetched (tr : list event) : list Z :=
  omap (λ ev, match ev with Fetch w => Some w | Print _ _ => None end) tr.

(** The two team ids of a box score whose sides are both team objects. *)
Definition box_ids (box : BoxScore) : option Matchup :=
  match home_team box, away_team box with
  | TeamObj h, TeamObj a => Some [h; a]
  | _, _ => None
  end.

(** * The rest of app.py: saving, teams, routes *)

(** ** JSON text as [json.dump(..., indent=2)] lays it out *)

Module JsonDump.

(** A line break followed by the indentation of nesting depth [level]. *)
Definition newline (level : nat) : string :=
  String.String (Ascii.ascii_of_nat 10) (String.concat String.EmptyString (replicate level "  ")).

(** The items of a non-empty container, one per line, between [opening] and
    [closing]. *)
Definition block (level : nat) (opening closing : string) (items : list string)
  : string :=
  match items with
  | [] => opening +:+ closing
  | _ => opening +:+ newline (S level)
           +:+ String.concat ("," +:+ newline (S level)) items
           +:+ newline level +:+ closing
  end.

(** Escape-free strings, integers, literals, arrays and objects; the members
    of an object are written in the order of the map. *)
Fixpoint dumps_at (level : nat) (j : json) : string :=
  match j with
  | JNull => "null"
  | JBool true => "true"
  | JBool false => "false"
  | JInt z => pretty z
  | JStr s => quoted s
  | JList l => block level "[" "]" (dumps_at (S level) <$> l)
  | JDict d =>
      block level "{" "}"
        ((λ kv : string * string, quoted kv.1 +:+ ": " +:+ kv.2)
           <$> map_to_list (dumps_at (S level) <$> d))
  end.

Definition dumps (j : json) : string := dumps_at 0 j.

End JsonDump.

(** ** ScheduleStore: saving *)

Section schedule_save.
(** [json.dump] is the library's; saving is verified for any encoder. *)
Variable json_dump : json → string.

(** [with open(SCHEDULE_FILE, 'w') as f: json.dump(schedule, f, indent=2)] *)
Definition save_schedule (schedule : json) (fs : Files) : Files :=
  <[SCHEDULE_FILE := json_dump schedule]> fs.

End schedule_save.

(** ** Teams of the league *)

(** A team object of the provider.  [owners] and [owner] are the attributes
    [get_teams] probes with [hasattr]: [None] when the object lacks one. *)
Record ProviderTeam : Type := {
  team_id : Z;
  team_name : string;
  team_abbrev : string;
  owners : option json;
  owner : option json;
}.

(** The league object with its team list; [core] holds the attributes the
    aggregators read. *)
Record FullLeague : Type := {
  core : League;
  teams : list ProviderTeam;
}.

(** Truth value of an object in a condition. *)
Definition truthy (v : json) : bool :=
  match v with
  | JNull => false
  | JBool b => b
  | JInt z => negb (z =? 0)
  | JStr s => match s with String.EmptyString => false | _ => true end
  | JList l => match l with [] => false | _ => true end
  | JDict d => match map_to_list d with [] => false | _ => true end
  end.

(** [{"id": ..., "name": ..., "abbrev": ..., "owner": ...}] *)
Record TeamInfo : Type := {
  info_id : Z;
  info_name : string;
  info_abbrev : string;
  info_owner : json;
}.

(** The [elif hasattr(team, 'owner') ... else "Unknown"] branches. *)
Definition owner_fallback (team : ProviderTeam) : json :=
  match owner team with
  | Some o => o
  | None => JStr "Unknown"
  end.

(** The owner [get_teams] reports for one team. *)
Definition resolve_owner (team : ProviderTeam) : result json :=
  match owners team with
  | Some v =>
      if truthy v then
        match v with
        | JList l => getitem l 0
        | _ => Ok v
        end
      else Ok (owner_fallback team)
  | None => Ok (owner_fallback team)
  end.

Definition get_teams (league : FullLeague) : result (list TeamInfo) :=
  for_in (teams league)
    (λ teams team,
       owner ← resolve_owner team;
       Ok (teams ++ [ {| info_id := team_id team;
                         info_name := team_name team;
                         info_abbrev := team_abbrev team;
                         info_owner := owner |} ]))
    [].

(** ** Configuration and connection *)

Record Config : Type := {
  LEAGUE_ID : Z;
  ESPN_S2 : string;
  SWID : string;
}.

Definition YEAR : Z := 2025.

(** The arguments of the provider's [League(...)] constructor. *)
Inductive league_request : Type :=
| LeagueRequest (league_id year : Z) (cookies : option (string * string)).

Definition nonempty (s : string) : bool :=
  match s with String.EmptyString => false | _ => true end.

(** ** Routes *)

Inductive payload : Type :=
| LeagueInfo (leagueName : string) (year regularSeasonWeeks currentWeek : Z)
    (teams : list TeamInfo) (weeks : list WeeklyResult) (schedule : json)
| WeekInfo (data : WeeklyResult)
| Refreshed (currentWeek teams : Z)
| Generated (schedule : Schedule)
| Saved (schedule : json)
| ErrorBody (e : exn).

(** A JSON body and the HTTP status. *)
Definition Response : Type := payload * Z.

Section routes.
Variable cfg : Config.
(** The provider's constructor: it returns the league object or raises. *)
Variable connect : league_request → result FullLeague.
Variable json_load : string → result json.
Variable json_dump : json → string.

Definition get_league : result FullLeague :=
  if nonempty (ESPN_S2 cfg) && nonempty (SWID cfg) then
    connect (LeagueRequest (LEAGUE_ID cfg) YEAR (Some (ESPN_S2 cfg, SWID cfg)))
  else connect (LeagueRequest (LEAGUE_ID cfg) YEAR None).

(** [except Exception as e: return jsonify({"error": str(e)}), 500] *)
Definition server_error (e : exn) : io Response := mret (ErrorBody e, 500).

(** [GET /api/league] *)
Definition league_info (fs : Files) : io Response :=
  try_except
    (league ← lift get_league;
     schedule ← lift (load_schedule json_load fs);
     let currentWeek := Z.min (current_week (core league)) REGULAR_SEASON_WEEKS in
     teams ← lift (get_teams league);
     weeks ← get_all_weekly_data (core league);
     mret (LeagueInfo "Master's League" YEAR REGULAR_SEASON_WEEKS currentWeek
             teams weeks schedule, 200))
    server_error.

(** [GET /api/week/<int:week>] *)
Definition week_data (week : Z) : io Response :=
  try_except
    (league ← lift get_league;
     data ← get_weekly_data (core league) week;
     mret (WeekInfo data, 200))
    server_error.

(** [POST /api/schedule] with the request's JSON body. *)
Definition update_schedule (body : json) (fs : Files) : Files * Response :=
  let schedule := body in
  (save_schedule json_dump schedule fs, (Saved schedule, 200)).

(** [GET /api/refresh] *)
Definition refresh_data : io Response :=
  try_except
    (league ← lift get_league;
     mret (Refreshed (current_week (core league))
                     (Z.of_nat (length (teams league))), 200))
    server_error.

(** [GET /api/schedule/generate] *)
Definition generate_schedule : io Response :=
  try_except
    (league ← lift get_league;
     let team_ids := team_id <$> teams league in
     schedule ← lift (generate_round_robin team_ids REGULAR_SEASON_WEEKS);
     mret (Generated schedule, 200))
    server_error.

End routes.

(** ** Vocabulary for the rest of the file *)

(** The id and score a box score records for each of its two sides. *)
Definition box_entries (box : BoxScore) : list (Z * Q) :=
  match home_team box, away_team box with
  | TeamObj h, TeamObj a => [(h, home_score box); (a, away_score box)]
  | _, _ => []
  end.

(** The owner [get_teams] reports, read off the three branches: the first
    element of a non-empty [owners] list, a truthy [owners] that is not a list
    as it is, else the [owner] attribute, else "Unknown". *)
Definition reported_owner (team : ProviderTeam) : json :=
  match owners team with
  | Some (JList (first :: _)) => first
  | Some v => if truthy v then v else owner_fallback team
  | None => owner_fallback team
  end.

(** [scores[id] = score] for one recorded entry. *)
Definition put_score (scores : gmap Z Q) (entry : Z * Q) : gmap Z Q :=
  <[entry.1 := entry.2]> scores.

(** Team count after the bye is added: [len(teams)] in the generator. *)
Definition adjusted_count (team_ids : list Z) : Z :=
  Z.of_nat (length (bye_padded team_ids)).

(** Weeks of the season loop that raise, and weeks that return but have no
    score above zero. *)
Definition week_fails (league : League) (w : Z) : bool :=
  match week_outcome league w with Ok _ => false | Raise _ => true end.

Definition week_unplayed (league : League) (w : Z) : bool :=
  match week_outcome league w with
  | Ok r => negb (any_positive (scores r))
  | Raise _ => false
  end.

(** The failures reported on the console, in order. *)
Definition printed (tr : list event) : list (Z * exn) :=
  omap (λ ev, match ev with Print w e => Some (w, e) | Fetch _ => None end) tr.

(** * Proofs *)

(** ** The error monad and the Python fragment *)

Lemma half_twice_le (n : nat) : (n / 2 + n / 2 ≤ n)%nat.
Proof. pose proof (Nat.div_mod_eq n 2). lia. Qed.

Section py_lemmas.
Context {A S : Type}.

Lemma for_in_ok (f : S → A → S) (body : S → A → result S) (xs : list A) (s : S) :
  (∀ s x, x ∈ xs → body s x = Ok (f s x)) →
  for_in xs body s = Ok (foldl f s xs).
Proof.
  revert s. induction xs as [|x xs IH]; intros s Hbody; simpl; [done|].
  rewrite Hbody by left. simpl. apply IH.
  intros s' y Hy. apply Hbody. by right.
Qed.

Lemma getitem_nat (l : list A) (i : nat) (x : A) :
  l !! i = Some x → getitem l (Z.of_nat i) = Ok x.
Proof.
  intros Hl. pose proof (lookup_lt_Some _ _ _ Hl) as Hlt.
  unfold getitem.
  destruct (Z.ltb_spec (Z.of_nat i) 0) as [|_]; [lia|].
  destruct (Z.leb_spec 0 (Z.of_nat i)) as [_|]; [|lia].
  destruct (Z.ltb_spec (Z.of_nat i) (Z.of_nat (length l))) as [_|]; [|lia].
  simpl. by rewrite Nat2Z.id, Hl.
Qed.

Lemma slice_from_one (l : list A) : slice_from l 1 = drop 1 l.
Proof.
  unfold slice_from, clamp. simpl.
  destruct l as [|x l]; [done|].
  replace (Z.to_nat (1 `min` Z.of_nat (length (x :: l)))) with 1%nat; [done|].
  simpl length. lia.
Qed.

Lemma slice_from_neg (l : list A) (r : Z) :
  0 < r ≤ Z.of_nat (length l) →
  slice_from l (- r) = drop (length l - Z.to_nat r) l.
Proof.
  intros Hr. unfold slice_from, clamp.
  destruct (Z.ltb_spec (- r) 0); [|lia]. f_equal. lia.
Qed.

Lemma slice_to_neg (l : list A) (r : Z) :
  0 < r ≤ Z.of_nat (length l) →
  slice_to l (- r) = take (length l - Z.to_nat r) l.
Proof.
  intros Hr. unfold slice_to, clamp.
  destruct (Z.ltb_spec (- r) 0); [|lia]. f_equal. lia.
Qed.

Lemma foldl_snoc_bind {B} (g : A → list B) (xs : list A) (acc : list B) :
  foldl (λ acc x, acc ++ g x) acc xs = acc ++ (xs ≫= g).
Proof.
  revert acc. induction xs as [|x xs IH]; intros acc; simpl.
  - by rewrite app_nil_r.
  - rewrite IH. by rewrite <-(assoc_L (++)).
Qed.

End py_lemmas.

(** ** The generator computes the circle and folds it *)

Lemma length_circle teams r : length (circle teams r) = length teams.
Proof. destruct teams; simpl; [done|]. by rewrite length_rotate. Qed.

Lemma circle_zero teams : circle teams 0 = teams.
Proof.
  destruct teams as [|t0 others]; simpl; [done|]. f_equal.
  unfold rotate. rewrite Nat.sub_0_r, Nat.Div0.mod_same. simpl.
  by rewrite app_nil_r.
Qed.

Lemma rotated_teams_circle teams r :
  0 ≤ r → (r ≠ 0 → r < Z.of_nat (length teams) - 1) →
  rotated_teams teams r = Ok (circle teams (Z.to_nat r)).
Proof.
  intros Hr0 Hr. unfold rotated_teams.
  destruct (Z.eqb_spec r 0) as [->|Hne]; [by rewrite circle_zero|].
  specialize (Hr Hne).
  destruct teams as [|t0 others]; simpl in Hr; [lia|].
  change (getitem (t0 :: others) 0) with (getitem (t0 :: others) (Z.of_nat 0)).
  rewrite (getitem_nat (t0 :: others) 0 t0) by done. simpl.
  rewrite slice_from_one. simpl. rewrite drop_0.
  rewrite slice_from_neg, slice_to_neg by lia.
  do 2 f_equal. unfold rotate.
  rewrite Nat.mod_small by lia. done.
Qed.

Lemma fold_pairs_lookup (l : list (option Z)) (i : nat) :
  (i < length l / 2)%nat →
  fold_pairs l !! i
  = Some (default None (l !! i), default None (l !! (length l - 1 - i)%nat)).
Proof.
  intros Hi. unfold fold_pairs.
  pose proof (half_twice_le (length l)) as Hh.
  apply lookup_zip_Some. split.
  - rewrite lookup_take_lt by done.
    destruct (lookup_lt_is_Some_2 l i) as [x ->]; [lia|done].
  - rewrite reverse_lookup by (rewrite length_drop; lia).
    rewrite lookup_drop, length_drop.
    replace (length l / 2 + (length l - length l / 2 - S i))%nat
      with (length l - 1 - i)%nat by lia.
    destruct (lookup_lt_is_Some_2 l (length l - 1 - i)) as [x ->]; [lia|done].
Qed.

Lemma length_fold_pairs (l : list (option Z)) :
  length (fold_pairs l) = (length l / 2)%nat.
Proof.
  unfold fold_pairs.
  pose proof (Nat.div_mod_eq (length l) 2).
  rewrite length_zip, length_take, length_reverse, length_drop. lia.
Qed.

Lemma fold_pairs_seq (l : list (option Z)) :
  fold_pairs l
  = (λ i, (default None (l !! i), default None (l !! (length l - 1 - i)%nat)))
      <$> seq 0 (length l / 2).
Proof.
  apply list_eq. intros i.
  destruct (decide (i < length l / 2)%nat) as [Hi|Hi].
  - rewrite fold_pairs_lookup by done.
    rewrite list_lookup_fmap, lookup_seq_lt by done. done.
  - rewrite (lookup_ge_None_2 (fold_pairs l)) by (rewrite length_fold_pairs; lia).
    rewrite lookup_ge_None_2; [done|]. rewrite length_fmap, length_seq. lia.
Qed.

Lemma pair_up_loop (l : list (option Z)) (idxs : list nat) (acc : list Matchup) :
  Forall (λ i, i < length l / 2)%nat idxs →
  for_in (Z.of_nat <$> idxs)
    (λ matchups i,
       t1 ← getitem l i;
       t2 ← getitem l (Z.of_nat (length l) - 1 - i);
       match t1, t2 with
       | Some a, Some b => Ok (matchups ++ [[a; b]])
       | _, _ => Ok matchups
       end) acc
  = Ok (acc ++ omap both
          ((λ i, (default None (l !! i), default None (l !! (length l - 1 - i)%nat)))
             <$> idxs)).
Proof.
  revert acc. induction idxs as [|i idxs IH]; intros acc Hidxs; simpl.
  { by rewrite app_nil_r. }
  apply Forall_cons in Hidxs as [Hi Hidxs].
  pose proof (half_twice_le (length l)) as Hh.
  destruct (lookup_lt_is_Some_2 l i) as [x Hx]; [lia|].
  destruct (lookup_lt_is_Some_2 l (length l - 1 - i)) as [y Hy]; [lia|].
  rewrite (getitem_nat l i x) by done. simpl.
  replace (Z.of_nat (length l) - 1 - Z.of_nat i)
    with (Z.of_nat (length l - 1 - i)) by lia.
  rewrite (getitem_nat l _ y) by done. simpl.
  rewrite Hx, Hy. simpl.
  destruct x as [a|], y as [b|]; simpl; rewrite IH by done; try done.
  by rewrite <-(assoc_L (++)).
Qed.

Lemma pair_up_spec (l : list (option Z)) :
  pair_up l (Z.of_nat (length l)) = Ok (omap both (fold_pairs l)).
Proof.
  unfold pair_up, floordiv, range. simpl.
  rewrite Z.sub_0_r.
  replace (Z.of_nat (length l) `div` 2) with (Z.of_nat (length l / 2))
    by (by rewrite Nat2Z.inj_div).
  replace (seqZ 0 (Z.of_nat (length l / 2)))
    with (Z.of_nat <$> seq 0 (length l / 2)).
  2:{ unfold seqZ. rewrite Nat2Z.id.
      apply list_fmap_ext. intros ? ? _. lia. }
  rewrite pair_up_loop.
  - by rewrite fold_pairs_seq.
  - apply Forall_forall. intros i Hi%elem_of_seq. lia.
Qed.

Lemma week_matchups_spec (teams : list (option Z)) (w : Z) :
  length teams ≠ 1%nat →
  week_matchups teams w
  = Ok (round_matchups teams (round_of (length teams) w)).
Proof.
  intros Hn. unfold week_matchups, mod_, round_matchups, round_of.
  destruct (Z.eqb_spec (Z.of_nat (length teams) - 1) 0) as [|Hm]; [lia|].
  simpl.
  set (r := (w - 1) `mod` (Z.of_nat (length teams) - 1)).
  assert (0 ≤ r ∧ (r ≠ 0 → r < Z.of_nat (length teams) - 1)) as [Hr0 Hr].
  { subst r. destruct (decide (length teams = 0%nat)) as [Hz|Hz].
    - rewrite Hz. simpl. rewrite Z.mod_opp_r_z by (lia || apply Z.mod_1_r).
      lia.
    - pose proof (Z.mod_pos_bound (w - 1) (Z.of_nat (length teams) - 1)).
      lia. }
  rewrite rotated_teams_circle by done. simpl.
  rewrite <-(length_circle teams (Z.to_nat r)).
  apply pair_up_spec.
Qed.

(** ** The schedule built week by week *)

Lemma bye_padded_cases (team_ids : list Z) :
  (Nat.Even (length team_ids) ∧ bye_padded team_ids = Some <$> team_ids)
  ∨ (Nat.Odd (length team_ids) ∧ bye_padded team_ids = (Some <$> team_ids) ++ [None]).
Proof.
  unfold bye_padded.
  destruct (Z.eqb_spec (Z.of_nat (length team_ids) `mod` 2) 1) as [Hodd|Heven];
    destruct (Nat.Even_or_Odd (length team_ids)) as [[k Hk]|[k Hk]];
    try (Z.div_mod_to_equations; lia).
  - right. split; [by exists k|done].
  - left. split; [by exists k|done].
Qed.

Lemma bye_padded_even (team_ids : list Z) :
  Nat.Even (length (bye_padded team_ids)).
Proof.
  destruct (bye_padded_cases team_ids) as [[[k Hk] ->]|[[k Hk] ->]].
  - rewrite length_fmap. by exists k.
  - rewrite length_app, length_fmap. simpl. exists (S k). lia.
Qed.

Lemma bye_padded_NoDup (team_ids : list Z) :
  NoDup team_ids → NoDup (bye_padded team_ids).
Proof.
  intros Hnd. unfold bye_padded.
  assert (NoDup (Some <$> team_ids)) as Hs by (by apply (NoDup_fmap_2 _)).
  destruct (_ =? _); [|done].
  apply NoDup_app. split_and!; [done| |apply NoDup_singleton].
  intros x [a [-> _]]%list_elem_of_fmap Hx%list_elem_of_singleton. done.
Qed.

Lemma generate_round_robin_spec (team_ids : list Z) (weeks : Z) :
  generate_round_robin team_ids weeks
  = Ok (schedule_of (bye_padded team_ids) weeks).
Proof.
  unfold generate_round_robin, schedule_of, range.
  replace (weeks + 1 - 1) with weeks by lia.
  apply for_in_ok. intros s w _.
  rewrite week_matchups_spec; [done|].
  pose proof (bye_padded_even team_ids) as [k Hk]. lia.
Qed.

Lemma schedule_of_lookup (teams : list (option Z)) (weeks w : Z) :
  1 ≤ w ≤ weeks →
  schedule_of teams weeks !! str w
  = Some (round_matchups teams (round_of (length teams) w)).
Proof.
  intros Hw. unfold schedule_of.
  assert (w ∈ seqZ 1 weeks) as Hin by (apply elem_of_seqZ; lia).
  revert Hin. generalize (seqZ 1 weeks) (∅ : Schedule).
  intros ws. induction ws as [|w' ws IH] using rev_ind; intros s0 Hin.
  { by apply elem_of_nil in Hin. }
  rewrite foldl_app. simpl.
  destruct (decide (w' = w)) as [->|Hne].
  - by rewrite lookup_insert_eq.
  - rewrite lookup_insert_ne by (intros ?%(inj _); done).
    apply IH. apply elem_of_app in Hin as [?|?%list_elem_of_singleton]; done.
Qed.

Lemma schedule_of_lookup_Some (teams : list (option Z)) (weeks : Z) k ms :
  schedule_of teams weeks !! k = Some ms →
  ∃ w, 1 ≤ w ≤ weeks ∧ k = str w
       ∧ ms = round_matchups teams (round_of (length teams) w).
Proof.
  unfold schedule_of.
  assert (∀ w, w ∈ seqZ 1 weeks → 1 ≤ w ≤ weeks) as Hin
    by (intros w ?%elem_of_seqZ; lia).
  revert Hin. generalize (seqZ 1 weeks). intros ws.
  induction ws as [|w' ws IH] using rev_ind; intros Hin.
  { simpl. rewrite lookup_empty. intros [=]. }
  rewrite foldl_app. simpl.
  destruct (decide (str w' = k)) as [<-|Hne].
  - rewrite lookup_insert_eq. intros [= <-].
    exists w'. split; [|done]. apply Hin, elem_of_app. right. by apply list_elem_of_singleton.
  - rewrite lookup_insert_ne by done. intros Hk.
    apply IH; [|done]. intros w ?. apply Hin, elem_of_app. by left.
Qed.

Lemma week_of_schedule_of (teams : list (option Z)) (weeks w : Z) :
  1 ≤ w ≤ weeks →
  week_of (schedule_of teams weeks) w
  = round_matchups teams (round_of (length teams) w).
Proof. intros Hw. unfold week_of. by rewrite schedule_of_lookup. Qed.
(** ** Counting with [filter] *)

Section counting.
Context {A : Type} (P : A → Prop) `{!∀ x, Decision (P x)}.

Lemma filter_none (l : list A) :
  (∀ x, x ∈ l → ¬ P x) → filter P l = [].
Proof.
  induction l as [|x l IH]; intros Hl; [done|].
  rewrite filter_cons_False by (apply Hl; left).
  apply IH. intros y Hy. apply Hl. by right.
Qed.

Lemma length_filter_unique (l : list A) (x0 : A) :
  NoDup l → x0 ∈ l → P x0 → (∀ x, x ∈ l → P x → x = x0) →
  length (filter P l) = 1%nat.
Proof.
  intros Hnd Hin HP Huniq.
  assert (filter P l ≡ₚ [x0]) as ->; [|done].
  apply NoDup_Permutation.
  - by apply NoDup_filter.
  - apply NoDup_singleton.
  - intros x. rewrite list_elem_of_filter, list_elem_of_singleton. split.
    + intros [??]. by apply Huniq.
    + by intros ->.
Qed.

Lemma sum_indicator {B} (f : B → nat) (Q : B → Prop) `{!∀ x, Decision (Q x)}
    (l : list B) :
  (∀ x, x ∈ l → f x = if decide (Q x) then 1%nat else 0%nat) →
  sum_list (f <$> l) = length (filter Q l).
Proof.
  induction l as [|x l IH]; intros Hf; [done|].
  csimpl. rewrite Hf by left. rewrite filter_cons.
  rewrite IH by (intros y Hy; apply Hf; by right).
  by case_decide.
Qed.

End counting.

(** ** Folding a circle pairs every slot once *)

Lemma sides_zip (l1 l2 : list (option Z)) :
  length l1 = length l2 → sides (zip l1 l2) ≡ₚ l1 ++ l2.
Proof.
  revert l2. induction l1 as [|x l1 IH]; intros [|y l2] Hlen; simplify_eq/=;
    [done|].
  unfold sides in *. simpl. rewrite IH by done.
  constructor. by rewrite <-Permutation_middle.
Qed.

Lemma sides_fold_pairs (l : list (option Z)) :
  Nat.Even (length l) → sides (fold_pairs l) ≡ₚ l.
Proof.
  intros [k Hk]. unfold fold_pairs.
  assert (length l / 2 = k)%nat as -> by (rewrite Hk, (Nat.mul_comm 2 k); by apply Nat.div_mul).
  rewrite sides_zip.
  - by rewrite reverse_Permutation, take_drop.
  - rewrite length_take, length_reverse, length_drop. lia.
Qed.

Lemma both_sublist_sides (ps : list (option Z * option Z)) :
  Some <$> mjoin (omap both ps) `sublist_of` sides ps.
Proof.
  unfold sides. induction ps as [|[[a|] [b|]] ps IH]; simpl; [done|..].
  - by do 2 constructor.
  - by do 2 apply sublist_cons.
  - by do 2 apply sublist_cons.
  - by do 2 apply sublist_cons.
Qed.

Lemma circle_Permutation (teams : list (option Z)) (r : nat) :
  circle teams r ≡ₚ teams.
Proof.
  destruct teams as [|t0 others]; simpl; [done|]. constructor.
  unfold rotate. by rewrite (comm (++)), take_drop.
Qed.

Lemma round_matchups_NoDup (teams : list (option Z)) (r : nat) :
  NoDup teams → Nat.Even (length teams) →
  NoDup (mjoin (round_matchups teams r)).
Proof.
  intros Hnd Hev. apply (NoDup_fmap_1 Some).
  eapply sublist_NoDup; [|apply both_sublist_sides].
  rewrite sides_fold_pairs by (by rewrite length_circle).
  by rewrite circle_Permutation.
Qed.

Lemma both_pairs (ps : list (option Z * option Z)) :
  Forall (λ p : Matchup, ∃ a b, p = [a; b]) (omap both ps).
Proof.
  apply Forall_forall. intros p [[[a|] [b|]] [_ Hp]]%list_elem_of_omap;
    simplify_eq/=. eauto.
Qed.

Lemma appearances_NoDup (t : Z) (ms : list Matchup) :
  NoDup (mjoin ms) → (appearances t ms ≤ 1)%nat.
Proof.
  unfold appearances. induction ms as [|p ms IH]; simpl; [lia|].
  intros [Hp [Hdisj Hms]]%NoDup_app.
  rewrite filter_cons. case_decide as Ht; [|by apply IH].
  simpl. rewrite filter_none; [done|].
  intros q Hq Htq.
  apply (Hdisj t Ht). apply list_elem_of_join. eauto.
Qed.

Lemma week_invariant_NoDup (ms : list Matchup) :
  Forall (λ p : Matchup, ∃ a b, p = [a; b]) ms →
  NoDup (mjoin ms) → week_invariant ms.
Proof.
  intros Hpairs Hnd. split; [|intros t; by apply appearances_NoDup].
  apply Forall_forall. intros p Hp.
  pose proof (proj1 (Forall_forall _ _) Hpairs p Hp) as (a & b & ->).
  exists a, b. split; [done|]. intros ->.
  apply list_elem_of_split in Hp as (ms1 & ms2 & ->).
  rewrite join_app in Hnd. simpl in Hnd.
  apply NoDup_app in Hnd as (_ & _ & Hnd).
  apply NoDup_cons in Hnd as [Hb _]. apply Hb. by left.
Qed.

Lemma round_matchups_invariant (teams : list (option Z)) (r : nat) :
  NoDup teams → Nat.Even (length teams) →
  week_invariant (round_matchups teams r).
Proof.
  intros Hnd Hev. apply week_invariant_NoDup.
  - apply both_pairs.
  - by apply round_matchups_NoDup.
Qed.
(** ** Who meets whom in a folded list *)

Lemma elem_of_fold_pairs (l : list (option Z)) (x y : option Z) :
  (x, y) ∈ fold_pairs l
  ↔ ∃ i, (i < length l / 2)%nat ∧ l !! i = Some x
         ∧ l !! (length l - 1 - i)%nat = Some y.
Proof.
  pose proof (half_twice_le (length l)) as Hh.
  rewrite list_elem_of_lookup. split.
  - intros [i Hi]. exists i.
    assert (i < length l / 2)%nat as Hlt.
    { apply lookup_lt_Some in Hi. by rewrite length_fold_pairs in Hi. }
    split; [done|].
    rewrite fold_pairs_lookup in Hi by done.
    destruct (lookup_lt_is_Some_2 l i) as [x' Hx]; [lia|].
    destruct (lookup_lt_is_Some_2 l (length l - 1 - i)) as [y' Hy]; [lia|].
    rewrite Hx, Hy in Hi |- *. by simplify_eq/=.
  - intros (i & Hlt & Hx & Hy). exists i.
    rewrite fold_pairs_lookup by done. by rewrite Hx, Hy.
Qed.

Lemma across_sym (l : list (option Z)) (x y : option Z) :
  across l x y → across l y x.
Proof. intros (i & j & ? & ? & ?). exists j, i. split_and!; [done..|lia]. Qed.

Lemma pair_in_fold (l : list (option Z)) (a b : Z) :
  [a; b] ∈ omap both (fold_pairs l) → across l (Some a) (Some b).
Proof.
  intros [[x y] [Hin Hb]]%list_elem_of_omap.
  destruct x as [a'|], y as [b'|]; simplify_eq/=.
  apply elem_of_fold_pairs in Hin as (i & Hi & Hx & Hy).
  pose proof (half_twice_le (length l)) as Hh.
  exists i, (length l - 1 - i)%nat. split_and!; [done..|lia].
Qed.

Lemma across_in_fold (l : list (option Z)) (a b : Z) :
  Nat.Even (length l) → across l (Some a) (Some b) →
  [a; b] ∈ omap both (fold_pairs l) ∨ [b; a] ∈ omap both (fold_pairs l).
Proof.
  intros [k Hk] (i & j & Hi & Hj & Hij).
  assert (length l / 2 = k)%nat as Hh
    by (rewrite Hk, (Nat.mul_comm 2 k); by apply Nat.div_mul).
  pose proof (lookup_lt_Some _ _ _ Hi). pose proof (lookup_lt_Some _ _ _ Hj).
  destruct (decide (i < j)%nat).
  - left. apply list_elem_of_omap. exists (Some a, Some b). split; [|done].
    apply elem_of_fold_pairs. exists i. split_and!; [lia|done|].
    by replace (length l - 1 - i)%nat with j by lia.
  - right. apply list_elem_of_omap. exists (Some b, Some a). split; [|done].
    apply elem_of_fold_pairs. exists j. split_and!; [lia|done|].
    by replace (length l - 1 - j)%nat with i by lia.
Qed.

Lemma games_between_le_1 (a b : Z) (ms : list Matchup) :
  NoDup (mjoin ms) → (games_between a b ms ≤ 1)%nat.
Proof.
  intros Hnd. etrans; [|by apply (appearances_NoDup a)].
  unfold games_between, appearances. clear Hnd.
  induction ms as [|p ms IH]; [done|].
  rewrite !filter_cons.
  destruct (decide (meets a b p)) as [[->| ->]|];
    [rewrite decide_True by repeat constructor; simpl; lia..|].
  case_decide; simpl; lia.
Qed.

Lemma games_between_pos (a b : Z) (ms : list Matchup) (p : Matchup) :
  p ∈ ms → meets a b p → (1 ≤ games_between a b ms)%nat.
Proof.
  intros Hp Hm. unfold games_between.
  assert (p ∈ filter (meets a b) ms) as Hin by (by apply list_elem_of_filter).
  destruct (filter (meets a b) ms); [by apply elem_of_nil in Hin|simpl; lia].
Qed.

Lemma games_between_fold (l : list (option Z)) (a b : Z) :
  NoDup l → Nat.Even (length l) → across l (Some a) (Some b) →
  games_between a b (omap both (fold_pairs l)) = 1%nat.
Proof.
  intros Hnd Hev Hacr.
  assert (games_between a b (omap both (fold_pairs l)) ≤ 1)%nat.
  { apply games_between_le_1, (NoDup_fmap_1 Some).
    eapply sublist_NoDup; [|apply both_sublist_sides].
    by rewrite sides_fold_pairs. }
  assert (1 ≤ games_between a b (omap both (fold_pairs l)))%nat; [|lia].
  destruct (across_in_fold l a b Hev Hacr) as [Hin|Hin];
    eapply games_between_pos; [done|by left|done|by right].
Qed.

Lemma games_between_fold_0 (l : list (option Z)) (a b : Z) :
  ¬ across l (Some a) (Some b) →
  games_between a b (omap both (fold_pairs l)) = 0%nat.
Proof.
  intros Hacr. unfold games_between. rewrite filter_none; [done|].
  intros p Hp [-> | ->]; apply Hacr.
  - by apply pair_in_fold.
  - by apply across_sym, pair_in_fold.
Qed.

Lemma bye_fold (l : list (option Z)) (a : Z) :
  NoDup l → Nat.Even (length l) → Some a ∈ l →
  has_bye a (omap both (fold_pairs l)) ↔ across l (Some a) None.
Proof.
  intros Hnd Hev [i Hi]%list_elem_of_lookup.
  pose proof (lookup_lt_Some _ _ _ Hi) as Hlt.
  destruct (lookup_lt_is_Some_2 l (length l - 1 - i)) as [y Hy]; [lia|].
  unfold has_bye. split.
  - intros Hbye. destruct y as [b|].
    + exfalso. apply Hbye.
      destruct (across_in_fold l a b Hev) as [Hin|Hin].
      { exists i, (length l - 1 - i)%nat. split_and!; [done..|lia]. }
      all: apply list_elem_of_join; eexists; split; [|exact Hin]; repeat constructor.
    + exists i, (length l - 1 - i)%nat. split_and!; [done..|lia].
  - intros (i' & j & Hi' & Hj & Hij) [p [Hap Hp]]%list_elem_of_join.
    assert (i' = i) as -> by (by eapply NoDup_lookup).
    assert (j = length l - 1 - i)%nat as -> by lia.
    pose proof (proj1 (Forall_forall _ _) (both_pairs (fold_pairs l)) p Hp)
      as (x & y' & ->).
    assert (across l (Some a) (Some y') ∨ across l (Some x) (Some a))
      as [(i1 & j1 & H1 & H2 & H3)|(i1 & j1 & H1 & H2 & H3)].
    { apply pair_in_fold in Hp.
      apply elem_of_cons in Hap as [->|Hap]; [by left|].
      apply list_elem_of_singleton in Hap as ->. by right. }
    + assert (i1 = i) as -> by (by eapply NoDup_lookup).
      assert (j1 = length l - 1 - i)%nat as -> by lia. congruence.
    + assert (j1 = i) as -> by (by eapply NoDup_lookup).
      assert (i1 = length l - 1 - i)%nat as -> by lia. congruence.
Qed.
(** ** Seats around the circle *)

Lemma circle_seat (teams : list (option Z)) (m r q : nat) :
  length teams = S m → (r < m)%nat → (q ≤ m)%nat →
  circle teams r !! seat m r q = teams !! q.
Proof.
  intros Hlen Hr Hq.
  destruct teams as [|t0 others]; simplify_eq/=.
  destruct q as [|u]; simpl; [done|].
  assert (wrap (length others) (u + r) < length others)%nat as Hw
    by (unfold wrap; case_decide; lia).
  rewrite lookup_rotate_r by done. f_equal.
  unfold rotate_nat_add, wrap in *. case_decide.
  - replace (Z.of_nat (length others - r) + Z.of_nat (u + r))
      with (Z.of_nat u + 1 * Z.of_nat (length others)) by lia.
    rewrite Z_mod_plus_full, Z.mod_small by lia. lia.
  - replace (Z.of_nat (length others - r) + Z.of_nat (u + r - length others))
      with (Z.of_nat u) by lia.
    rewrite Z.mod_small by lia. lia.
Qed.

Lemma seat_le (m r q : nat) : (0 < m)%nat → (r < m)%nat → (q ≤ m)%nat → (seat m r q ≤ m)%nat.
Proof. intros. destruct q; simpl; [lia|]. unfold wrap. case_decide; lia. Qed.

Lemma across_circle (teams : list (option Z)) (m r qx qy : nat) (x y : option Z) :
  NoDup teams → length teams = S m → (r < m)%nat →
  teams !! qx = Some x → teams !! qy = Some y →
  across (circle teams r) x y ↔ (seat m r qx + seat m r qy = m)%nat.
Proof.
  intros Hnd Hlen Hr Hx Hy.
  pose proof (lookup_lt_Some _ _ _ Hx). pose proof (lookup_lt_Some _ _ _ Hy).
  assert (circle teams r !! seat m r qx = Some x) as Hsx
    by (rewrite (circle_seat _ m) by lia; done).
  assert (circle teams r !! seat m r qy = Some y) as Hsy
    by (rewrite (circle_seat _ m) by lia; done).
  assert (NoDup (circle teams r)) as Hndc by (by rewrite circle_Permutation).
  unfold across. rewrite length_circle, Hlen. split.
  - intros (i & j & Hi & Hj & Hij).
    assert (i = seat m r qx) as -> by (by eapply NoDup_lookup).
    assert (j = seat m r qy) as -> by (by eapply NoDup_lookup).
    lia.
  - intros Hsum. exists (seat m r qx), (seat m r qy). split_and!; [done..|lia].
Qed.

Lemma seat_round_exists (m qx qy : nat) :
  Nat.Odd m → qx ≠ qy → (qx ≤ m)%nat → (qy ≤ m)%nat →
  ∃ r, (r < m)%nat ∧ (seat m r qx + seat m r qy = m)%nat.
Proof.
  intros [k ->] Hne Hx Hy.
  destruct qx as [|u], qy as [|v]; [done| | |].
  - exists (2 * k + 1 - 1 - v)%nat. unfold seat, wrap. case_decide; lia.
  - exists (2 * k + 1 - 1 - u)%nat. unfold seat, wrap. case_decide; lia.
  - destruct (Nat.Even_or_Odd (u + v)) as [[c Hc]|[c Hc]].
    + exists (2 * k - c)%nat. unfold seat, wrap. repeat case_decide; lia.
    + exists (wrap (2 * k + 1) (3 * k - c)). unfold seat, wrap.
      repeat case_decide; lia.
Qed.

Lemma seat_round_unique (m qx qy r r' : nat) :
  Nat.Odd m → qx ≠ qy → (qx ≤ m)%nat → (qy ≤ m)%nat →
  (r < m)%nat → (r' < m)%nat →
  (seat m r qx + seat m r qy = m)%nat →
  (seat m r' qx + seat m r' qy = m)%nat →
  r = r'.
Proof.
  intros [k ->] Hne Hx Hy Hr Hr'.
  destruct qx as [|u], qy as [|v]; [done| | |];
    unfold seat, wrap; repeat case_decide; lia.
Qed.

(** ** Rounds of a window of consecutive weeks *)

Lemma round_of_lt (m : nat) (w : Z) :
  (0 < m)%nat → (round_of (S m) w < m)%nat.
Proof.
  intros Hm. unfold round_of.
  replace (Z.of_nat (S m) - 1) with (Z.of_nat m) by lia.
  pose proof (Z.mod_pos_bound (w - 1) (Z.of_nat m)). lia.
Qed.

Lemma round_of_window_exists (m : nat) (s : Z) (r : nat) :
  (r < m)%nat → ∃ w, s ≤ w < s + Z.of_nat m ∧ round_of (S m) w = r.
Proof.
  intros Hr. exists (s + (Z.of_nat r - (s - 1)) `mod` Z.of_nat m).
  pose proof (Z.mod_pos_bound (Z.of_nat r - (s - 1)) (Z.of_nat m)).
  split; [lia|]. unfold round_of.
  replace (Z.of_nat (S m) - 1) with (Z.of_nat m) by lia.
  replace (s + (Z.of_nat r - (s - 1)) `mod` Z.of_nat m - 1)
    with ((s - 1) + (Z.of_nat r - (s - 1)) `mod` Z.of_nat m) by lia.
  rewrite Zplus_mod_idemp_r.
  replace (s - 1 + (Z.of_nat r - (s - 1))) with (Z.of_nat r) by lia.
  rewrite Z.mod_small by lia. lia.
Qed.

Lemma round_of_window_unique (m : nat) (s w w' : Z) :
  (0 < m)%nat →
  s ≤ w < s + Z.of_nat m → s ≤ w' < s + Z.of_nat m →
  round_of (S m) w = round_of (S m) w' → w = w'.
Proof.
  intros Hm Hw Hw'. unfold round_of.
  replace (Z.of_nat (S m) - 1) with (Z.of_nat m) by lia.
  pose proof (Z.mod_pos_bound (w - 1) (Z.of_nat m)).
  pose proof (Z.mod_pos_bound (w' - 1) (Z.of_nat m)).
  intros Heq. assert ((w - 1) `mod` Z.of_nat m = (w' - 1) `mod` Z.of_nat m) as Hmod by lia.
  pose proof (Z.div_mod (w - 1) (Z.of_nat m)).
  pose proof (Z.div_mod (w' - 1) (Z.of_nat m)).
  assert ((w - 1) `div` Z.of_nat m = (w' - 1) `div` Z.of_nat m); [|lia].
  nia.
Qed.

Lemma round_of_periodic (m : nat) (w : Z) :
  round_of (S m) (w + Z.of_nat m) = round_of (S m) w.
Proof.
  unfold round_of.
  replace (Z.of_nat (S m) - 1) with (Z.of_nat m) by lia.
  replace (w + Z.of_nat m - 1) with (w - 1 + 1 * Z.of_nat m) by lia.
  by rewrite Z_mod_plus_full.
Qed.
(** ** One meeting per window *)

Lemma window_exactly_one (m : nat) (s : Z) (qx qy : nat)
    (P : Z → Prop) `{!∀ w, Decision (P w)} :
  Nat.Odd m → qx ≠ qy → (qx ≤ m)%nat → (qy ≤ m)%nat →
  (∀ w, s ≤ w < s + Z.of_nat m →
        P w ↔ (seat m (round_of (S m) w) qx + seat m (round_of (S m) w) qy = m)%nat) →
  length (filter P (seqZ s (Z.of_nat m))) = 1%nat.
Proof.
  intros Hodd Hne Hx Hy HP.
  assert (0 < m)%nat as Hm by (destruct Hodd as [k ->]; lia).
  destruct (seat_round_exists m qx qy) as (r & Hr & Hseat); [done..|].
  destruct (round_of_window_exists m s r Hr) as (w0 & Hw0 & Hround).
  apply (length_filter_unique _ _ w0).
  - apply NoDup_seqZ.
  - apply elem_of_seqZ. lia.
  - apply HP; [done|]. by rewrite Hround.
  - intros w Hw%elem_of_seqZ HPw. apply HP in HPw; [|lia].
    apply (round_of_window_unique m s); [done|lia|done|].
    rewrite Hround.
    eapply (seat_round_unique m qx qy); [done..|apply round_of_lt; lia|done| |done].
    done.
Qed.

Lemma round_matchups_games (teams : list (option Z)) (m r qa qb : nat) (a b : Z) :
  NoDup teams → length teams = S m → Nat.Odd m → (r < m)%nat →
  teams !! qa = Some (Some a) → teams !! qb = Some (Some b) →
  games_between a b (round_matchups teams r)
  = if decide (seat m r qa + seat m r qb = m)%nat then 1%nat else 0%nat.
Proof.
  intros Hnd Hlen [k Hk] Hr Ha Hb. unfold round_matchups.
  pose proof (across_circle teams m r qa qb _ _ Hnd Hlen Hr Ha Hb) as Hacr.
  case_decide as Hseat.
  - apply games_between_fold.
    + by rewrite circle_Permutation.
    + rewrite length_circle, Hlen. exists (S k). lia.
    + by apply Hacr.
  - apply games_between_fold_0. by rewrite Hacr.
Qed.

Lemma round_matchups_bye (teams : list (option Z)) (m r qa qn : nat) (a : Z) :
  NoDup teams → length teams = S m → Nat.Odd m → (r < m)%nat →
  teams !! qa = Some (Some a) → teams !! qn = Some None →
  has_bye a (round_matchups teams r) ↔ (seat m r qa + seat m r qn = m)%nat.
Proof.
  intros Hnd Hlen [k Hk] Hr Ha Hn. unfold round_matchups.
  rewrite bye_fold.
  - by apply across_circle.
  - by rewrite circle_Permutation.
  - rewrite length_circle, Hlen. exists (S k). lia.
  - rewrite circle_Permutation. by eapply list_elem_of_lookup_2.
Qed.
(** ** The dropped pairing *)

Lemma length_omap_both (ps : list (option Z * option Z)) :
  (length (omap both ps) + length (filter (λ p, both p = None) ps))%nat
  = length ps.
Proof.
  induction ps as [|[[a|] [b|]] ps IH]; [done|..];
    rewrite filter_cons; case_decide; simplify_eq/=; lia.
Qed.

Lemma nones_sides (ps : list (option Z * option Z)) :
  NoDup (sides ps) →
  length (filter (λ p, both p = None) ps) = length (filter (λ x, x = None) (sides ps)).
Proof.
  unfold sides. induction ps as [|[x y] ps IH]; [done|].
  cbn [mbind list_bind fst snd app]. intros Hnd.
  apply NoDup_cons in Hnd as [Hx Hnd]. apply NoDup_cons in Hnd as [Hy Hnd].
  rewrite !filter_cons. specialize (IH Hnd).
  destruct x as [a|], y as [b|]; repeat case_decide; simplify_eq/=; try lia.
  exfalso. apply Hx. by left.
Qed.

Lemma fold_pairs_drop_bye (l : list (option Z)) :
  NoDup l → Nat.Even (length l) → None ∈ l →
  S (length (omap both (fold_pairs l))) = (length l / 2)%nat.
Proof.
  intros Hnd Hev Hnone.
  pose proof (length_omap_both (fold_pairs l)) as Hlen.
  rewrite length_fold_pairs in Hlen.
  rewrite nones_sides in Hlen by (by rewrite sides_fold_pairs).
  rewrite (sides_fold_pairs l Hev) in Hlen.
  rewrite (length_filter_unique _ l None) in Hlen; [lia|done..|].
  by intros.
Qed.
(** * RoundRobinGenerator: the claims *)

(** C5: generate_round_robin([1,2,3,4], weeks=3) is exactly
    {"1": [[1,4],[2,3]], "2": [[1,3],[4,2]], "3": [[1,2],[3,4]]}, pairs and
    their order within each week included. *)
Theorem generate_round_robin_four_teams :
  generate_round_robin [1; 2; 3; 4] 3
  = Ok (<["1" := [[1; 4]; [2; 3]]]>
        (<["2" := [[1; 3]; [4; 2]]]>
         (<["3" := [[1; 2]; [3; 4]]]> ∅))).
Proof. vm_compute. reflexivity. Qed.

(** C6: for distinct team ids and any number of weeks, the generator returns
    a schedule in which no pair lists the same team twice and, within a week,
    no team is listed in more than one pair. *)
Theorem generate_round_robin_pairs_valid (team_ids : list Z) (weeks : Z) :
  NoDup team_ids →
  ∃ schedule,
    generate_round_robin team_ids weeks = Ok schedule
    ∧ ∀ key ms, schedule !! key = Some ms →
        Forall distinct_pair ms ∧ ∀ t, (appearances t ms ≤ 1)%nat.
Proof.
  intros Hnd. eexists. split; [apply generate_round_robin_spec|].
  intros key ms (w & _ & _ & ->)%schedule_of_lookup_Some.
  apply round_matchups_invariant.
  - by apply bye_padded_NoDup.
  - apply bye_padded_even.
Qed.

Lemma generate_round_robin_pairs_valid_witness :
  NoDup [4; 8; 15; 16; 23]
  ∧ ∃ schedule,
      generate_round_robin [4; 8; 15; 16; 23] 13 = Ok schedule
      ∧ ∀ key ms, schedule !! key = Some ms →
          Forall distinct_pair ms ∧ ∀ t, (appearances t ms ≤ 1)%nat.
Proof.
  assert (NoDup [4; 8; 15; 16; 23]) as Hnd by (apply (bool_decide_unpack _); vm_compute; exact I).
  split; [exact Hnd|].
  exact (generate_round_robin_pairs_valid [4; 8; 15; 16; 23] 13 Hnd).
Defined.

(** C7: for an even number [n] of distinct team ids, week [w] and week
    [w + (n - 1)] of the output hold the same matchups, and in any [n - 1]
    consecutive weeks of the output every two distinct teams meet exactly
    once. *)
Theorem generate_round_robin_even_cycle (team_ids : list Z) (weeks : Z) :
  NoDup team_ids → Nat.Even (length team_ids) →
  let n := Z.of_nat (length team_ids) in
  ∃ schedule,
    generate_round_robin team_ids weeks = Ok schedule
    ∧ (∀ w, 1 ≤ w ≤ weeks → 1 ≤ w + (n - 1) ≤ weeks →
         ∃ ms, schedule !! str w = Some ms
               ∧ schedule !! str (w + (n - 1)) = Some ms)
    ∧ (∀ s a b, 1 ≤ s → s + (n - 1) - 1 ≤ weeks →
         a ∈ team_ids → b ∈ team_ids → a ≠ b →
         sum_list ((λ w, games_between a b (week_of schedule w)) <$> seqZ s (n - 1))
         = 1%nat).
Proof.
  intros Hnd Hev n. eexists. split; [apply generate_round_robin_spec|].
  destruct (bye_padded_cases team_ids) as [[_ Hteams]|[[k Hk] _]];
    [|destruct Hev as [k' Hk']; lia].
  rewrite Hteams.
  assert (length (Some <$> team_ids) = length team_ids) as Hlen
    by apply length_fmap.
  split.
  - intros w Hw Hw'. eexists. split; [by apply schedule_of_lookup|].
    rewrite schedule_of_lookup by done. do 2 f_equal. rewrite Hlen.
    destruct (length team_ids) as [|m] eqn:Hm.
    + unfold round_of. simpl.
      by rewrite !Z.mod_opp_r_z by (lia || apply Z.mod_1_r).
    + subst n. replace (Z.of_nat (S m) - 1) with (Z.of_nat m) by lia.
      apply round_of_periodic.
  - intros s a b Hs Hend [qa Ha]%list_elem_of_lookup [qb Hb]%list_elem_of_lookup Hab.
    pose proof (lookup_lt_Some _ _ _ Ha) as Hqa.
    pose proof (lookup_lt_Some _ _ _ Hb) as Hqb.
    destruct (length team_ids) as [|m] eqn:Hm; [lia|].
    assert (Nat.Odd m) as Hodd.
    { destruct Hev as [k Hk]. exists (k - 1)%nat. lia. }
    subst n. replace (Z.of_nat (S m) - 1) with (Z.of_nat m) in * by lia.
    set (Q w := (seat m (round_of (S m) w) qa + seat m (round_of (S m) w) qb = m)%nat).
    rewrite (sum_indicator _ Q).
    + apply (window_exactly_one m s qa qb); [done| |lia|lia|done].
      intros ->. simplify_eq.
    + intros w Hw%elem_of_seqZ.
      rewrite week_of_schedule_of by lia. rewrite Hlen.
      apply (round_matchups_games _ m).
      * by apply (NoDup_fmap_2 _).
      * done.
      * done.
      * apply round_of_lt. destruct Hodd as [k ->]. lia.
      * by rewrite list_lookup_fmap, Ha.
      * by rewrite list_lookup_fmap, Hb.
Qed.

Lemma generate_round_robin_even_cycle_witness :
  NoDup [1; 2; 3; 4] ∧ Nat.Even (length [1; 2; 3; 4])
  ∧ ∃ schedule,
      generate_round_robin [1; 2; 3; 4] 7 = Ok schedule
      ∧ (∀ w, 1 ≤ w ≤ 7 → 1 ≤ w + (4 - 1) ≤ 7 →
           ∃ ms, schedule !! str w = Some ms
                 ∧ schedule !! str (w + (4 - 1)) = Some ms)
      ∧ (∀ s a b, 1 ≤ s → s + (4 - 1) - 1 ≤ 7 →
           a ∈ [1; 2; 3; 4] → b ∈ [1; 2; 3; 4] → a ≠ b →
           sum_list ((λ w, games_between a b (week_of schedule w)) <$> seqZ s (4 - 1))
           = 1%nat).
Proof.
  assert (NoDup [1; 2; 3; 4]) as Hnd by (apply (bool_decide_unpack _); vm_compute; exact I).
  assert (Nat.Even (length [1; 2; 3; 4])) as Hev by (exists 2%nat; reflexivity).
  split; [exact Hnd|]. split; [exact Hev|].
  exact (generate_round_robin_even_cycle [1; 2; 3; 4] 7 Hnd Hev).
Defined.
(** C8: for an odd number of distinct team ids (adjusted count [n], one more
    than the number of ids), every week of the output leaves exactly one
    team without a pair, the pairing of that team with the bye placeholder
    being dropped, and over any [n - 1] consecutive weeks of the output each
    team has exactly one bye. *)
Theorem generate_round_robin_odd_byes (team_ids : list Z) (weeks : Z) :
  NoDup team_ids → Nat.Odd (length team_ids) →
  let n := Z.of_nat (length team_ids) + 1 in
  ∃ schedule,
    generate_round_robin team_ids weeks = Ok schedule
    ∧ (∀ w, 1 ≤ w ≤ weeks →
         length (filter (λ t, has_bye t (week_of schedule w)) team_ids) = 1%nat
         ∧ S (length (week_of schedule w)) = Z.to_nat (n `div` 2))
    ∧ (∀ s t, 1 ≤ s → s + (n - 1) - 1 ≤ weeks → t ∈ team_ids →
         length (filter (λ w, has_bye t (week_of schedule w)) (seqZ s (n - 1)))
         = 1%nat).
Proof.
  intros Hnd Hodd n. eexists. split; [apply generate_round_robin_spec|].
  destruct (bye_padded_cases team_ids) as [[[k Hk] _]|[_ Hteams]];
    [destruct Hodd as [k' Hk']; lia|].
  set (m := length team_ids) in *.
  set (teams := bye_padded team_ids) in *.
  assert (length teams = S m) as Hlen.
  { rewrite Hteams, length_app, length_fmap. simpl. lia. }
  assert (NoDup teams) as Hndt by (by apply bye_padded_NoDup).
  assert (Nat.Even (length teams)) as Hevt by apply bye_padded_even.
  assert (0 < m)%nat as Hm by (destruct Hodd as [k ->]; lia).
  assert (teams !! m = Some None) as Hnone.
  { rewrite Hteams, lookup_app_r by (rewrite length_fmap; lia).
    by rewrite length_fmap, Nat.sub_diag. }
  assert (∀ q t, team_ids !! q = Some t → teams !! q = Some (Some t)) as Hlook.
  { intros q t Hq. rewrite Hteams, lookup_app_l.
    - by rewrite list_lookup_fmap, Hq.
    - rewrite length_fmap. by eapply lookup_lt_Some. }
  split.
  - intros w Hw. rewrite week_of_schedule_of by done. rewrite Hlen.
    set (r := round_of (S m) w).
    assert (r < m)%nat as Hr by (by apply round_of_lt).
    unfold round_matchups.
    pose proof (circle_Permutation teams r) as Hperm.
    pose proof (length_circle teams r) as Hlenc. rewrite Hlen in Hlenc.
    generalize dependent (circle teams r). intros c Hperm Hlenc.
    assert (NoDup c) as Hndc by (by rewrite Hperm).
    assert (Nat.Even (length c)) as Hevc by (by rewrite Hlenc, <-Hlen).
    assert (None ∈ c) as Hin.
    { rewrite Hperm. by eapply list_elem_of_lookup_2. }
    split.
    + (* the team across the bye placeholder, and only that team *)
      destruct (proj1 (list_elem_of_lookup _ _) Hin) as [j Hj].
      pose proof (lookup_lt_Some _ _ _ Hj) as Hjlt.
      destruct (lookup_lt_is_Some_2 c (m - j)) as [x Hx]; [lia|].
      assert (∃ t, x = Some t) as [t ->].
      { destruct x as [t|]; [by eexists|].
        assert (m - j = j)%nat by (by eapply NoDup_lookup).
        destruct Hodd as [k Hk]. lia. }
      assert (t ∈ team_ids) as Ht.
      { assert (Some t ∈ teams) as Hst.
        { rewrite <-Hperm. by eapply list_elem_of_lookup_2. }
        rewrite Hteams in Hst.
        apply elem_of_app in Hst as [Hst|Hst%list_elem_of_singleton]; [|done].
        by apply (list_elem_of_fmap_inj_2 Some). }
      apply (length_filter_unique _ _ t); [exact Hnd|exact Ht| |].
      * apply bye_fold; [done..| |].
        { by eapply list_elem_of_lookup_2. }
        exists (m - j)%nat, j. split_and!; [done..|rewrite Hlenc; lia].
      * intros t' Ht' Hbye.
        apply bye_fold in Hbye; [|done..|].
        2:{ rewrite Hperm, Hteams.
            apply elem_of_app. left. by apply list_elem_of_fmap_2. }
        destruct Hbye as (i' & j' & Hi' & Hj' & Hsum). rewrite Hlenc in Hsum.
        assert (j' = j) as -> by (by eapply NoDup_lookup).
        replace i' with (m - j)%nat in Hi' by lia. congruence.
    + pose proof (fold_pairs_drop_bye c Hndc Hevc Hin) as Hdrop.
      rewrite Hdrop, Hlenc.
      subst n. fold m.
      replace (Z.of_nat m + 1) with (Z.of_nat (S m)) by lia.
      change 2 with (Z.of_nat 2). by rewrite <-Nat2Z.inj_div, Nat2Z.id.
  - intros s t Hs Hend [qt Ht]%list_elem_of_lookup.
    pose proof (lookup_lt_Some _ _ _ Ht) as Hqt.
    subst n. fold m in Hend |- *.
    replace (Z.of_nat m + 1 - 1) with (Z.of_nat m) in * by lia.
    apply (window_exactly_one m s qt m); [done|lia|lia|lia|].
    intros w Hw. rewrite week_of_schedule_of by lia. rewrite Hlen.
    apply (round_matchups_bye teams m); [done..| |by apply Hlook|done].
    by apply round_of_lt.
Qed.

Lemma generate_round_robin_odd_byes_witness :
  NoDup [7; 3; 9] ∧ Nat.Odd (length [7; 3; 9])
  ∧ ∃ schedule,
      generate_round_robin [7; 3; 9] 5 = Ok schedule
      ∧ (∀ w, 1 ≤ w ≤ 5 →
           length (filter (λ t, has_bye t (week_of schedule w)) [7; 3; 9]) = 1%nat
           ∧ S (length (week_of schedule w)) = Z.to_nat ((3 + 1) `div` 2))
      ∧ (∀ s t, 1 ≤ s → s + (3 + 1 - 1) - 1 ≤ 5 → t ∈ [7; 3; 9] →
           length (filter (λ w, has_bye t (week_of schedule w)) (seqZ s (3 + 1 - 1)))
           = 1%nat).
Proof.
  assert (NoDup [7; 3; 9]) as Hnd by (apply (bool_decide_unpack _); vm_compute; exact I).
  assert (Nat.Odd (length [7; 3; 9])) as Hodd by (exists 1%nat; reflexivity).
  split; [exact Hnd|]. split; [exact Hodd|].
  exact (generate_round_robin_odd_byes [7; 3; 9] 5 Hnd Hodd).
Defined.
(** ** The aggregators *)

Lemma positive_score_spec (s : Q) : positive_score s = true ↔ (0 < s)%Q.
Proof.
  unfold positive_score. rewrite negb_true_iff, <-not_true_iff_false, Qle_bool_iff.
  split; [apply Qnot_le_lt|apply Qlt_not_le].
Qed.

Lemma any_positive_spec (scores : gmap Z Q) :
  any_positive scores = true ↔ ∃ t s, scores !! t = Some s ∧ (0 < s)%Q.
Proof.
  unfold any_positive. rewrite existsb_exists. split.
  - intros (s & Hin & Hs). apply list_elem_of_In in Hin.
    apply list_elem_of_fmap in Hin as ([t s'] & -> & Hin).
    apply elem_of_map_to_list in Hin.
    exists t, s'. split; [done|]. by apply positive_score_spec.
  - intros (t & s & Hts & Hs). exists s. split; [|by apply positive_score_spec].
    apply list_elem_of_In, list_elem_of_fmap. exists (t, s). split; [done|].
    by apply elem_of_map_to_list.
Qed.

Lemma get_weekly_data_run (league : League) (w : Z) (tr : list event) :
  get_weekly_data league w tr = (week_outcome league w, tr ++ [Fetch w]).
Proof.
  unfold get_weekly_data, week_outcome, mbind, io_bind, result_bind, emit, lift.
  simpl. destruct (box_scores league w) as [boxes|e]; [|done].
  by destruct (collect_boxes boxes) as [[scores espn]|e].
Qed.

Lemma season_loop (league : League) (ws : list Z)
    (acc : list WeeklyResult) (tr : list event) :
  for_io ws
    (λ weeks week,
       try_except
         (week_data ← get_weekly_data league week;
          if any_positive (scores week_data) then mret (weeks ++ [week_data])
          else mret weeks)
         (λ e, emit (Print week e);; mret weeks))
    acc tr
  = (Ok (acc ++ omap (included league) ws), tr ++ (ws ≫= week_events league)).
Proof.
  revert acc tr. induction ws as [|w ws IH]; intros acc tr.
  { simpl. by rewrite !app_nil_r. }
  cbn [for_io]. unfold mbind at 1, io_bind at 1.
  unfold try_except, mbind at 1, io_bind at 1.
  rewrite get_weekly_data_run.
  cbn [omap list_omap mbind list_bind]. unfold included at 1, week_events at 1.
  destruct (week_outcome league w) as [r|e].
  - destruct (any_positive (scores r)); unfold mret, io_ret; rewrite IH;
      by rewrite <-!(assoc_L (++)).
  - unfold mbind, io_bind, emit, mret, io_ret. rewrite IH.
    by rewrite <-!(assoc_L (++)).
Qed.

Lemma get_all_weekly_data_run (league : League) (tr : list event) :
  get_all_weekly_data league tr
  = (Ok (omap (included league) (seqZ 1 (upper_bound league))),
     tr ++ (seqZ 1 (upper_bound league) ≫= week_events league)).
Proof.
  unfold get_all_weekly_data, range. fold (upper_bound league).
  replace (upper_bound league + 1 - 1) with (upper_bound league) by lia.
  apply season_loop.
Qed.

Lemma included_week (league : League) (w : Z) (r : WeeklyResult) :
  included league w = Some r → week r = w.
Proof.
  unfold included, week_outcome.
  destruct (box_scores league w) as [boxes|]; [|done]. simpl.
  destruct (collect_boxes boxes) as [[s e]|]; [|done]. simpl.
  case_match; [|done]. by intros [= <-].
Qed.

Lemma fetched_app (tr1 tr2 : list event) :
  fetched (tr1 ++ tr2) = fetched tr1 ++ fetched tr2.
Proof. apply omap_app. Qed.

Lemma fetched_week_events (league : League) (ws : list Z) :
  fetched (ws ≫= week_events league) = ws.
Proof.
  induction ws as [|w ws IH]; [done|].
  cbn [mbind list_bind]. rewrite fetched_app, IH.
  unfold week_events. by destruct (week_outcome league w).
Qed.

Lemma length_omap_le {A B} (f : A → option B) (l : list A) :
  (length (omap f l) ≤ length l)%nat.
Proof. induction l as [|x l IH]; csimpl; [done|]. destruct (f x); simpl; lia. Qed.
(** * ScheduleStore: the claims *)

Lemma default_schedule_week_9 :
  default_schedule !! "9" = Some [[1; 10]; [2; 3]; [4; 10]; [5; 8]; [6; 7]].
Proof. vm_compute. reflexivity. Qed.

(** The twelve other weeks of the default table do satisfy the invariant. *)
Lemma default_schedule_other_weeks :
  schedule_invariant (delete "9" default_schedule).
Proof.
  unfold schedule_invariant. apply map_Forall_to_list.
  assert (∀ ms : list Matchup,
            bool_decide (Forall (λ p : Matchup, length p = 2%nat) ms ∧ NoDup (mjoin ms)) = true →
            week_invariant ms) as Hcheck.
  { intros ms [Hlen Hnd]%bool_decide_eq_true. apply week_invariant_NoDup; [|done].
    eapply Forall_impl; [exact Hlen|]. intros [|a [|b [|??]]] ?; simplify_eq/=; eauto. }
  apply (Forall_impl (λ kms : string * list Matchup,
           bool_decide (Forall (λ p : Matchup, length p = 2%nat) kms.2
                        ∧ NoDup (mjoin kms.2)) = true));
    [|intros [k ms] H; apply Hcheck; exact H].
  apply (bool_decide_unpack _). vm_compute. exact I.
Qed.

(** C1 (the code departs from it): with no schedule file, [load_schedule]
    returns the hardcoded table, whose week "9" lists team 10 in two pairs
    (and team 9 in none), so the table breaks the invariant it is meant to
    satisfy. *)
Theorem default_schedule_week_9_repeats_team_10 (json_load : string → result json) :
  load_schedule json_load ∅ = Ok (of_schedule default_schedule)
  ∧ week_of default_schedule 9 = [[1; 10]; [2; 3]; [4; 10]; [5; 8]; [6; 7]]
  ∧ appearances 10 (week_of default_schedule 9) = 2%nat
  ∧ has_bye 9 (week_of default_schedule 9)
  ∧ ¬ schedule_invariant default_schedule.
Proof.
  assert (week_of default_schedule 9 = [[1; 10]; [2; 3]; [4; 10]; [5; 8]; [6; 7]])
    as Hweek by (vm_compute; reflexivity).
  split_and!.
  - unfold load_schedule. by rewrite lookup_empty.
  - exact Hweek.
  - rewrite Hweek. vm_compute. reflexivity.
  - rewrite Hweek. apply (bool_decide_unpack _). vm_compute. exact I.
  - intros Hinv. specialize (Hinv "9" _ default_schedule_week_9) as [_ Happ].
    specialize (Happ 10). vm_compute in Happ. lia.
Qed.

(** C2, refuted as stated: with a schedule file holding the malformed text
    [{], [load_schedule] raises the decoder's error and so does the route; it
    does not fall back to the default schedule. *)
Lemma load_schedule_malformed_file_raises :
  load_schedule Json.loads (<[SCHEDULE_FILE := "{"]> ∅) = Raise JSONDecodeError
  ∧ get_schedule Json.loads (<[SCHEDULE_FILE := "{"]> ∅) = Raise JSONDecodeError
  ∧ load_schedule Json.loads (<[SCHEDULE_FILE := "{"]> ∅)
    ≠ Ok (of_schedule default_schedule).
Proof. split_and!; [vm_compute; reflexivity..|]. vm_compute. intros [=]. Qed.

(** A well-formed schedule file is returned as decoded. *)
Example load_schedule_reads_file :
  let text := "{" +:+ quoted "1" +:+ ": [[1, 2], [3, 4]], "
                  +:+ quoted "2" +:+ ": [[1, 3], [2, 4]]}" in
  load_schedule Json.loads (<[SCHEDULE_FILE := text]> ∅)
  = Ok (of_schedule (<["1" := [[1; 2]; [3; 4]]]> (<["2" := [[1; 3]; [2; 4]]]> ∅))).
Proof. vm_compute. reflexivity. Qed.

(** So is well-formed JSON that is not a schedule: no shape is checked. *)
Example load_schedule_reads_any_json :
  load_schedule Json.loads (<[SCHEDULE_FILE := "[1, 2]"]> ∅)
  = Ok (JList [JInt 1; JInt 2]).
Proof. vm_compute. reflexivity. Qed.

(** C2, amended: [load_schedule] returns the hardcoded default exactly when
    no schedule file exists; when the file exists it returns what the decoder
    returns for the text of the file, so it raises exactly when the decoder
    does, and [GET /api/schedule] passes the outcome on unchanged. *)
Theorem load_schedule_outcome (json_load : string → result json) (fs : Files) :
  (fs !! SCHEDULE_FILE = None →
     load_schedule json_load fs = Ok (of_schedule default_schedule))
  ∧ (∀ text, fs !! SCHEDULE_FILE = Some text →
       load_schedule json_load fs = json_load text)
  ∧ (∀ e, load_schedule json_load fs = Raise e
          ↔ ∃ text, fs !! SCHEDULE_FILE = Some text ∧ json_load text = Raise e)
  ∧ get_schedule json_load fs = load_schedule json_load fs.
Proof.
  unfold get_schedule, load_schedule. split_and!.
  - by intros ->.
  - by intros text ->.
  - intros e. destruct (fs !! SCHEDULE_FILE) as [text|].
    + split; [by exists text|]. by intros (? & [= <-] & ?).
    + split; [done|]. by intros (? & [=] & _).
  - by destruct (match fs !! SCHEDULE_FILE with Some _ => _ | None => _ end).
Qed.

Lemma load_schedule_outcome_witness :
  (∅ : Files) !! SCHEDULE_FILE = None
  ∧ load_schedule Json.loads ∅ = Ok (of_schedule default_schedule)
  ∧ (<[SCHEDULE_FILE := "[1, 2"]> ∅ : Files) !! SCHEDULE_FILE = Some "[1, 2"
  ∧ load_schedule Json.loads (<[SCHEDULE_FILE := "[1, 2"]> ∅) = Json.loads "[1, 2".
Proof.
  assert ((∅ : Files) !! SCHEDULE_FILE = None) as Hnone by reflexivity.
  assert ((<[SCHEDULE_FILE := "[1, 2"]> ∅ : Files) !! SCHEDULE_FILE = Some "[1, 2")
    as Hsome by (vm_compute; reflexivity).
  split_and!; [exact Hnone| |exact Hsome|].
  - exact (proj1 (load_schedule_outcome Json.loads ∅) Hnone).
  - exact (proj1 (proj2 (load_schedule_outcome Json.loads _)) _ Hsome).
Defined.
(** * WeeklyAggregator: the claims *)

Lemma collect_boxes_loop (boxes : list BoxScore)
    (scores0 : gmap Z Q) (espn0 : list Matchup) :
  Forall (λ box, is_Some (box_ids box)) boxes →
  ∃ scores,
    for_in boxes
      (λ '(scores, espn_matchups) box,
         home_id ← team_id_of (home_team box);
         away_id ← team_id_of (away_team box);
         Ok (<[away_id := away_score box]> (<[home_id := home_score box]> scores),
             espn_matchups ++ [[home_id; away_id]]))
      (scores0, espn0)
    = Ok (scores, espn0 ++ omap box_ids boxes)
    ∧ dom scores =@{gset Z} dom scores0 ∪ list_to_set (mjoin (omap box_ids boxes)).
Proof.
  revert scores0 espn0. induction boxes as [|box boxes IH]; intros scores0 espn0 Hall.
  { exists scores0. simpl. rewrite app_nil_r. split; [done|].
    by rewrite (right_id_L ∅ (∪)). }
  apply Forall_cons in Hall as [[ids Hids] Hall].
  assert (∃ h a, home_team box = TeamObj h ∧ away_team box = TeamObj a
                 ∧ ids = [h; a]) as (h & a & Hh & Ha & ->).
  { unfold box_ids in Hids.
    destruct (home_team box), (away_team box); simplify_eq; eauto. }
  cbn [for_in]. rewrite Hh, Ha. cbn [team_id_of mbind result_bind].
  destruct (IH (<[a := away_score box]> (<[h := home_score box]> scores0))
              (espn0 ++ [[h; a]]) Hall) as (scores & -> & Hdom).
  exists scores. cbn [omap list_omap]. rewrite Hids.
  split; [by rewrite <-(assoc_L (++))|].
  rewrite Hdom, !dom_insert_L. cbn [mjoin list_join app list_to_set foldr].
  apply set_eq. intros t. rewrite !elem_of_union, !elem_of_singleton. tauto.
Qed.

(** C10: for a week whose box scores all have two team objects, the result
    of [get_weekly_data] has as keys of [scores] exactly the team ids listed in
    [espnMatchups], and [espnMatchups] lists the [[home_id, away_id]] pair of
    each box score, one per box score, in provider order. *)
Theorem get_weekly_data_shape (league : League) (w : Z)
    (boxes : list BoxScore) (tr : list event) :
  box_scores league w = Ok boxes →
  Forall (λ box, is_Some (box_ids box)) boxes →
  ∃ r,
    get_weekly_data league w tr = (Ok r, tr ++ [Fetch w])
    ∧ week r = w
    ∧ dom (scores r) =@{gset Z} list_to_set (mjoin (espnMatchups r))
    ∧ Forall2 (λ m box, box_ids box = Some m) (espnMatchups r) boxes
    ∧ length (espnMatchups r) = length boxes.
Proof.
  intros Hfetch Hall.
  destruct (collect_boxes_loop boxes ∅ [] Hall) as (scores & Hloop & Hdom).
  eexists. rewrite get_weekly_data_run. unfold week_outcome, collect_boxes.
  rewrite Hfetch. simpl. rewrite Hloop. simpl. split; [done|]. simpl.
  assert (Forall2 (λ m box, box_ids box = Some m) (omap box_ids boxes) boxes) as HF.
  { clear -Hall. induction Hall as [|box boxes [m Hm] _ IH]; csimpl; [done|].
    rewrite Hm. by constructor. }
  split_and!; [done| |done|by eapply Forall2_length].
  rewrite Hdom, dom_empty_L. by rewrite (left_id_L ∅ (∪)).
Qed.

Lemma get_weekly_data_shape_witness :
  let boxes := [ {| home_team := TeamObj 1; home_score := 100;
                    away_team := TeamObj 2; away_score := 90 |} ] in
  let league := {| current_week := 1; box_scores := λ _, Ok boxes |} in
  box_scores league 1 = Ok boxes
  ∧ Forall (λ box, is_Some (box_ids box)) boxes
  ∧ ∃ r,
      get_weekly_data league 1 [] = (Ok r, [] ++ [Fetch 1])
      ∧ week r = 1
      ∧ dom (scores r) =@{gset Z} list_to_set (mjoin (espnMatchups r))
      ∧ Forall2 (λ m box, box_ids box = Some m) (espnMatchups r) boxes
      ∧ length (espnMatchups r) = length boxes.
Proof.
  intros boxes league.
  assert (box_scores league 1 = Ok boxes) as Hfetch by reflexivity.
  assert (Forall (λ box, is_Some (box_ids box)) boxes) as Hall
    by (repeat constructor; by eexists).
  split; [exact Hfetch|]. split; [exact Hall|].
  exact (get_weekly_data_shape league 1 boxes [] Hfetch Hall).
Defined.

(** The spec's scenario for the weekly aggregator. *)
Example get_weekly_data_scenario :
  let boxes := [ {| home_team := TeamObj 1; home_score := 100;
                    away_team := TeamObj 2; away_score := 90 |} ] in
  let league := {| current_week := 1; box_scores := λ _, Ok boxes |} in
  (get_weekly_data league 1 []).1
  = Ok {| week := 1; scores := <[2 := 90%Q]> (<[1 := 100%Q]> ∅);
          espnMatchups := [[1; 2]] |}.
Proof. vm_compute. reflexivity. Qed.
(** * SeasonAggregator: the claims *)

Lemma week_outcome_week (league : League) (w : Z) (r : WeeklyResult) :
  week_outcome league w = Ok r → week r = w.
Proof.
  unfold week_outcome.
  destruct (box_scores league w) as [boxes|]; [|done]. simpl.
  destruct (collect_boxes boxes) as [[s e]|]; [|done]. simpl.
  by intros [= <-].
Qed.

Lemma elem_of_included (league : League) (ub : Z) (r : WeeklyResult) :
  r ∈ omap (included league) (seqZ 1 ub)
  ↔ ∃ w, 1 ≤ w ≤ ub ∧ week_outcome league w = Ok r
         ∧ any_positive (scores r) = true.
Proof.
  rewrite list_elem_of_omap. unfold included. split.
  - intros (w & Hw%elem_of_seqZ & Hinc). exists w. split; [lia|].
    destruct (week_outcome league w) as [r'|]; [|done].
    destruct (any_positive (scores r')) eqn:Hpos; by simplify_eq.
  - intros (w & Hw & Hr & Hpos). exists w. rewrite Hr, Hpos.
    split; [apply elem_of_seqZ; lia|done].
Qed.

(** C3, refuted as stated: a week in range whose fetch succeeds and whose
    scores are -1 and 0 has a nonzero score, yet its result is not appended. *)
Lemma season_nonzero_week_excluded :
  let boxes := [ {| home_team := TeamObj 1; home_score := -1;
                    away_team := TeamObj 2; away_score := 0 |} ] in
  let league := {| current_week := 1; box_scores := λ _, Ok boxes |} in
  1 ≤ 1 ≤ Z.min (current_week league) REGULAR_SEASON_WEEKS
  ∧ ∃ r, week_outcome league 1 = Ok r
         ∧ (∃ t s, scores r !! t = Some s ∧ ¬ (s == 0)%Q)
         ∧ (get_all_weekly_data league []).1 = Ok [].
Proof.
  intros boxes league. split; [done|]. eexists. split; [reflexivity|]. split.
  - exists 1, (-1)%Q. split; [vm_compute; reflexivity|]. done.
  - vm_compute. reflexivity.
Qed.

(** C3, amended: the season aggregator returns normally, and for every week
    in [1, min(currentWeek, regularSeasonWeeks)] whose fetch and aggregation
    succeed, that week's result is in the output if and only if at least one
    of its scores is strictly greater than zero; in particular an all-zero
    week is excluded. *)
Theorem season_inclusion_rule (league : League) (tr : list event) :
  ∃ out tr',
    get_all_weekly_data league tr = (Ok out, tr')
    ∧ (∀ w r,
         1 ≤ w ≤ Z.min (current_week league) REGULAR_SEASON_WEEKS →
         week_outcome league w = Ok r →
         r ∈ out ↔ ∃ t s, scores r !! t = Some s ∧ (0 < s)%Q)
    ∧ (∀ w r,
         week_outcome league w = Ok r →
         (∀ t s, scores r !! t = Some s → (s == 0)%Q) → r ∉ out).
Proof.
  do 2 eexists. split; [apply get_all_weekly_data_run|]. split.
  - intros w r Hw Hr. rewrite elem_of_included, <-any_positive_spec. split.
    + by intros (_ & _ & _ & ?).
    + intros Hpos. by exists w.
  - intros w r Hr Hzero (_ & _ & _ & Hpos)%elem_of_included.
    apply any_positive_spec in Hpos as (t & s & Hts & Hs).
    specialize (Hzero t s Hts). rewrite Hzero in Hs. by apply Qlt_irrefl in Hs.
Qed.

Lemma season_inclusion_rule_witness :
  let boxes w := [ {| home_team := TeamObj 1; home_score := if w =? 1 then 100 else 0;
                      away_team := TeamObj 2; away_score := 0 |} ] in
  let league := {| current_week := 2; box_scores := λ w, Ok (boxes w) |} in
  let r1 := {| week := 1; scores := <[2 := 0%Q]> (<[1 := 100%Q]> ∅);
               espnMatchups := [[1; 2]] |} in
  1 ≤ 1 ≤ Z.min (current_week league) REGULAR_SEASON_WEEKS
  ∧ week_outcome league 1 = Ok r1
  ∧ ∃ out tr',
      get_all_weekly_data league [] = (Ok out, tr')
      ∧ (r1 ∈ out ↔ ∃ t s, scores r1 !! t = Some s ∧ (0 < s)%Q).
Proof.
  intros boxes league r1.
  assert (1 ≤ 1 ≤ Z.min (current_week league) REGULAR_SEASON_WEEKS) as Hw
    by (vm_compute; split; discriminate).
  assert (week_outcome league 1 = Ok r1) as Hr by (vm_compute; reflexivity).
  split; [exact Hw|]. split; [exact Hr|].
  destruct (season_inclusion_rule league []) as (out & tr' & Hrun & Hrule & _).
  exists out, tr'. split; [exact Hrun|]. exact (Hrule 1 r1 Hw Hr).
Defined.

(** The spec's scenario: week 1 played, week 2 all zero. *)
Example season_scenario :
  let boxes w := [ {| home_team := TeamObj 1; home_score := if w =? 1 then 100 else 0;
                      away_team := TeamObj 2; away_score := if w =? 1 then 90 else 0 |} ] in
  let league := {| current_week := 2; box_scores := λ w, Ok (boxes w) |} in
  (get_all_weekly_data league []).1
  = Ok [ {| week := 1; scores := <[2 := 90%Q]> (<[1 := 100%Q]> ∅);
            espnMatchups := [[1; 2]] |} ].
Proof. vm_compute. reflexivity. Qed.

(** C4: whatever weeks fail (the fetch or the aggregation raising), the
    season aggregator returns normally; its output is, in week order, exactly
    the results of the weeks that do not fail and pass the inclusion rule; a
    failing week is absent from the output, is reported, and every week is
    requested from the provider once, so none is retried. *)
Theorem season_skips_failing_weeks (league : League) (tr : list event) :
  let ub := Z.min (current_week league) REGULAR_SEASON_WEEKS in
  ∃ out events,
    get_all_weekly_data league tr = (Ok out, tr ++ events)
    ∧ out = omap (included league) (seqZ 1 ub)
    ∧ (∀ r, r ∈ out ↔ ∃ w, 1 ≤ w ≤ ub ∧ week_outcome league w = Ok r
                          ∧ any_positive (scores r) = true)
    ∧ (∀ w e, week_outcome league w = Raise e → ∀ r, r ∈ out → week r ≠ w)
    ∧ (∀ w e, 1 ≤ w ≤ ub → week_outcome league w = Raise e → Print w e ∈ events)
    ∧ fetched events = seqZ 1 ub.
Proof.
  intros ub. do 2 eexists. split; [apply get_all_weekly_data_run|].
  fold (upper_bound league). change (upper_bound league) with ub.
  split_and!.
  - done.
  - apply elem_of_included.
  - intros w e Hfail r (w' & _ & Hr & _)%elem_of_included Hweek.
    apply week_outcome_week in Hr as Hw'. congruence.
  - intros w e Hw Hfail. apply list_elem_of_bind. exists w. split.
    + unfold week_events. rewrite Hfail. do 2 constructor.
    + apply elem_of_seqZ. lia.
  - apply fetched_week_events.
Qed.

Lemma season_skips_failing_weeks_witness :
  let boxes := [ {| home_team := TeamObj 1; home_score := 100;
                    away_team := TeamObj 2; away_score := 90 |} ] in
  let league := {| current_week := 3;
                   box_scores := λ w, if w =? 2 then Raise (ProviderError "timeout")
                                      else Ok boxes |} in
  week_outcome league 2 = Raise (ProviderError "timeout")
  ∧ (get_all_weekly_data league []).2
    = [Fetch 1; Fetch 2; Print 2 (ProviderError "timeout"); Fetch 3]
  ∧ ∃ out, (get_all_weekly_data league []).1 = Ok out
           ∧ ∀ r, r ∈ out → week r ≠ 2.
Proof.
  intros boxes league.
  assert (week_outcome league 2 = Raise (ProviderError "timeout")) as Hfail
    by reflexivity.
  split; [exact Hfail|]. split; [vm_compute; reflexivity|].
  destruct (season_skips_failing_weeks league []) as (out & events & Hrun & _ & _ & Habsent & _).
  exists out. split; [by rewrite Hrun|]. exact (Habsent 2 _ Hfail).
Defined.
Lemma omap_ext_in {A B} (f g : A → option B) (l : list A) :
  (∀ x, x ∈ l → f x = g x) → omap f l = omap g l.
Proof.
  induction l as [|x l IH]; intros Hfg; [done|]. csimpl.
  rewrite Hfg by left. rewrite IH; [done|]. intros y Hy. apply Hfg. by right.
Qed.

Lemma included_weeks_sublist (league : League) (ws : list Z) :
  week <$> omap (included league) ws `sublist_of` ws.
Proof.
  induction ws as [|w ws IH]; csimpl; [done|].
  destruct (included league w) as [r|] eqn:Hr; csimpl.
  - rewrite (included_week league w r Hr). by constructor.
  - by constructor.
Qed.

Lemma included_agree (league league' : League) (w : Z) :
  box_scores league' w = box_scores league w →
  included league' w = included league w.
Proof. intros Hbox. unfold included, week_outcome. by rewrite Hbox. Qed.

(** The season loop for any current week, negative ones included: the bound
    is then on max(0, .). *)
Lemma season_run_any_week (league : League) (tr : list event) :
  let ub := Z.min (current_week league) REGULAR_SEASON_WEEKS in
  ∃ out events,
    get_all_weekly_data league tr = (Ok out, tr ++ events)
    ∧ fetched events = seqZ 1 ub
    ∧ week <$> out `sublist_of` seqZ 1 ub
    ∧ Z.of_nat (length out) ≤ Z.max 0 ub
    ∧ ∀ league' tr0,
        current_week league ≤ current_week league' →
        (∀ w, 1 ≤ w ≤ ub → box_scores league' w = box_scores league w) →
        ∃ out' tr',
          get_all_weekly_data league' tr0 = (Ok out', tr')
          ∧ out `prefix_of` out'
          ∧ (length out ≤ length out')%nat.
Proof.
  intros ub. do 2 eexists. split; [apply get_all_weekly_data_run|].
  fold (upper_bound league). change (upper_bound league) with ub.
  split_and!.
  - apply fetched_week_events.
  - apply included_weeks_sublist.
  - pose proof (length_omap_le (included league) (seqZ 1 ub)) as Hle.
    rewrite length_seqZ in Hle. lia.
  - intros league' tr0 Hcw Hsame. do 2 eexists.
    split; [apply get_all_weekly_data_run|].
    set (ub' := upper_bound league').
    assert (ub ≤ ub') as Hub by (subst ub ub'; unfold upper_bound; lia).
    assert (omap (included league) (seqZ 1 ub)
              `prefix_of` omap (included league') (seqZ 1 ub')) as Hpre.
    { destruct (decide (ub ≤ 0)) as [Hneg|Hpos].
      - rewrite (seqZ_nil 1 ub) by done. apply prefix_nil.
      - replace ub' with (ub + (ub' - ub)) by lia.
        rewrite seqZ_app, omap_app by lia.
        rewrite (omap_ext_in (included league') (included league) (seqZ 1 ub)).
        + by apply prefix_app_r.
        + intros w Hw%elem_of_seqZ. apply included_agree, Hsame. lia. }
    split; [done|]. by apply prefix_length.
Qed.

(** C9: for every current week of the provider (a week number, so not
    negative) and per-week data, the season aggregator requests the weeks
    1 .. min(currentWeek, regularSeasonWeeks) in increasing order, its output
    lists weeks in increasing order and has length at most
    min(currentWeek, regularSeasonWeeks), and when the current week grows
    while the data of the weeks already played stay the same, the old output
    is a prefix of the new one, so the output length does not decrease. *)
Theorem season_bounded_and_monotone (league : League) (tr : list event) :
  0 ≤ current_week league →
  let ub := Z.min (current_week league) REGULAR_SEASON_WEEKS in
  ∃ out events,
    get_all_weekly_data league tr = (Ok out, tr ++ events)
    ∧ fetched events = seqZ 1 ub
    ∧ week <$> out `sublist_of` seqZ 1 ub
    ∧ Z.of_nat (length out) ≤ ub
    ∧ ∀ league' tr0,
        current_week league ≤ current_week league' →
        (∀ w, 1 ≤ w ≤ ub → box_scores league' w = box_scores league w) →
        ∃ out' tr',
          get_all_weekly_data league' tr0 = (Ok out', tr')
          ∧ out `prefix_of` out'
          ∧ (length out ≤ length out')%nat.
Proof.
  intros Hcw ub.
  destruct (season_run_any_week league tr)
    as (out & events & Hrun & Hfetch & Hweeks & Hlen & Hmono).
  exists out, events. split_and!; [done..| |done].
  fold ub in Hlen. assert (0 ≤ ub) by (subst ub; unfold REGULAR_SEASON_WEEKS; lia).
  lia.
Qed.

Lemma season_bounded_and_monotone_witness :
  let boxes := [ {| home_team := TeamObj 1; home_score := 100;
                    away_team := TeamObj 2; away_score := 90 |} ] in
  let league := {| current_week := 2; box_scores := λ _, Ok boxes |} in
  let league' := {| current_week := 5; box_scores := λ _, Ok boxes |} in
  0 ≤ current_week league
  ∧ current_week league ≤ current_week league'
  ∧ (∀ w, 1 ≤ w ≤ Z.min (current_week league) REGULAR_SEASON_WEEKS →
          box_scores league' w = box_scores league w)
  ∧ ∃ out out',
      (get_all_weekly_data league []).1 = Ok out
      ∧ (get_all_weekly_data league' []).1 = Ok out'
      ∧ Z.of_nat (length out) ≤ Z.min (current_week league) REGULAR_SEASON_WEEKS
      ∧ (length out ≤ length out')%nat.
Proof.
  intros boxes league league'.
  assert (0 ≤ current_week league) as Hpos by (vm_compute; discriminate).
  assert (current_week league ≤ current_week league') as Hcw
    by (vm_compute; discriminate).
  assert (∀ w, 1 ≤ w ≤ Z.min (current_week league) REGULAR_SEASON_WEEKS →
               box_scores league' w = box_scores league w) as Hsame
    by (intros w _; reflexivity).
  split; [exact Hpos|]. split; [exact Hcw|]. split; [exact Hsame|].
  destruct (season_bounded_and_monotone league [] Hpos)
    as (out & events & Hrun & _ & _ & Hbound & Hmono).
  destruct (Hmono league' [] Hcw Hsame) as (out' & tr' & Hrun' & _ & Hlen).
  exists out, out'. by rewrite Hrun, Hrun'.
Defined.
(** * RoundRobinGenerator: further properties *)

(** X1: the generator never raises, whatever the team list (empty, odd,
    with repeated ids) and the number of weeks: it returns a schedule with
    an entry for exactly the keys [str(1)] .. [str(weeks)], so an empty one
    when [weeks] is below 1. *)
Theorem generate_round_robin_total (team_ids : list Z) (weeks : Z) :
  ∃ schedule,
    generate_round_robin team_ids weeks = Ok schedule
    ∧ (∀ key, is_Some (schedule !! key) ↔ ∃ w, 1 ≤ w ≤ weeks ∧ key = str w)
    ∧ (weeks < 1 → schedule = ∅).
Proof.
  eexists. split; [apply generate_round_robin_spec|]. split.
  - intros key. split.
    + intros [ms (w & Hw & -> & _)%schedule_of_lookup_Some]. eauto.
    + intros (w & Hw & ->). rewrite schedule_of_lookup by done. by eexists.
  - intros Hweeks. unfold schedule_of. by rewrite seqZ_nil by lia.
Qed.

Lemma round_matchups_single (t : option Z) (r : nat) :
  round_matchups [t; None] r = [].
Proof.
  assert (∀ n, rotate n [None : option Z] = [None]) as Hrot
    by (intros n; apply (rotate_replicate n 1)).
  unfold round_matchups, circle. rewrite Hrot.
  unfold fold_pairs. simpl. by destruct t.
Qed.

(** X2: with fewer than two teams every week of the schedule has no matchup. *)
Theorem generate_round_robin_degenerate (team_ids : list Z) (weeks : Z) :
  (length team_ids < 2)%nat →
  ∃ schedule,
    generate_round_robin team_ids weeks = Ok schedule
    ∧ ∀ key ms, schedule !! key = Some ms → ms = [].
Proof.
  intros Hlen. eexists. split; [apply generate_round_robin_spec|].
  intros key ms (w & _ & _ & ->)%schedule_of_lookup_Some.
  destruct team_ids as [|t [|??]]; simpl in Hlen; [| |lia].
  - done.
  - apply round_matchups_single.
Qed.

Lemma generate_round_robin_degenerate_witness :
  (length [7] < 2)%nat
  ∧ ∃ schedule,
      generate_round_robin [7] 13 = Ok schedule
      ∧ ∀ key ms, schedule !! key = Some ms → ms = [].
Proof.
  assert (length [7] < 2)%nat as Hlen by (simpl; lia).
  split; [exact Hlen|]. exact (generate_round_robin_degenerate [7] 13 Hlen).
Defined.

(** X3: the schedule repeats with period [n - 1], [n] the adjusted team
    count, for every team list: when weeks [w] and [w + (n - 1)] are both in
    the output they hold the same matchups. *)
Theorem generate_round_robin_periodic (team_ids : list Z) (weeks w : Z) :
  1 ≤ w ≤ weeks → 1 ≤ w + (adjusted_count team_ids - 1) ≤ weeks →
  ∃ schedule,
    generate_round_robin team_ids weeks = Ok schedule
    ∧ week_of schedule (w + (adjusted_count team_ids - 1)) = week_of schedule w
    ∧ is_Some (schedule !! str w).
Proof.
  intros Hw Hw'. eexists. split; [apply generate_round_robin_spec|].
  unfold adjusted_count in *.
  rewrite !week_of_schedule_of, schedule_of_lookup by done.
  split; [|by eexists]. f_equal.
  destruct (length (bye_padded team_ids)) as [|m] eqn:Hm.
  - unfold round_of. simpl.
    by rewrite !Z.mod_opp_r_z by (lia || apply Z.mod_1_r).
  - replace (Z.of_nat (S m) - 1) with (Z.of_nat m) by lia.
    apply round_of_periodic.
Qed.

Lemma generate_round_robin_periodic_witness :
  1 ≤ 2 ≤ 13 ∧ 1 ≤ 2 + (adjusted_count [1; 2; 3; 4; 5] - 1) ≤ 13
  ∧ ∃ schedule,
      generate_round_robin [1; 2; 3; 4; 5] 13 = Ok schedule
      ∧ week_of schedule (2 + (adjusted_count [1; 2; 3; 4; 5] - 1))
        = week_of schedule 2
      ∧ is_Some (schedule !! str 2).
Proof.
  assert (1 ≤ 2 ≤ 13) as Hw by lia.
  assert (1 ≤ 2 + (adjusted_count [1; 2; 3; 4; 5] - 1) ≤ 13) as Hw'
    by (vm_compute; split; discriminate).
  split; [exact Hw|]. split; [exact Hw'|].
  exact (generate_round_robin_periodic [1; 2; 3; 4; 5] 13 2 Hw Hw').
Defined.
(** ** Pairings per week *)

Lemma none_pairs_bounds (ps : list (option Z * option Z)) :
  (length (filter (λ p, both p = None) ps)
   ≤ length (filter (λ x, x = None) (sides ps))
   ≤ 2 * length (filter (λ p, both p = None) ps))%nat.
Proof.
  unfold sides. induction ps as [|[x y] ps IH]; [simpl; lia|].
  cbn [mbind list_bind fst snd app]. rewrite !filter_cons.
  destruct x as [a|], y as [b|]; repeat case_decide; simplify_eq/=; lia.
Qed.

Lemma bye_padded_Some (team_ids : list Z) (t : Z) :
  Some t ∈ bye_padded team_ids ↔ t ∈ team_ids.
Proof.
  destruct (bye_padded_cases team_ids) as [[_ ->]|[_ ->]].
  - apply (list_elem_of_fmap_inj _).
  - rewrite elem_of_app, (list_elem_of_fmap_inj _), list_elem_of_singleton.
    split; [intros [?|[=]]; done|by left].
Qed.

Lemma bye_padded_nones (team_ids : list Z) :
  length (filter (λ x, x = None) (bye_padded team_ids))
  = (length (bye_padded team_ids) - length team_ids)%nat.
Proof.
  assert (filter (λ x : option Z, x = None) (Some <$> team_ids) = []) as Hnone.
  { apply filter_none. by intros x (t & -> & _)%list_elem_of_fmap. }
  destruct (bye_padded_cases team_ids) as [[_ ->]|[_ ->]].
  - rewrite Hnone, length_fmap. simpl. lia.
  - rewrite filter_app, Hnone, !length_app, length_fmap. simpl. lia.
Qed.

Lemma bye_padded_half (team_ids : list Z) :
  (length (bye_padded team_ids) / 2
   - (length (bye_padded team_ids) - length team_ids))%nat
  = (length team_ids / 2)%nat.
Proof.
  destruct (bye_padded_cases team_ids) as [[[k Hk] ->]|[[k Hk] ->]].
  - rewrite length_fmap. lia.
  - rewrite length_app, length_fmap, Hk. cbn [length].
    assert ((2 * k + 1 + 1) / 2 = k + 1)%nat as ->
      by (symmetry; apply (Nat.div_unique _ 2 (k + 1) 0); lia).
    assert ((2 * k + 1) / 2 = k)%nat as ->
      by (symmetry; apply (Nat.div_unique _ 2 k 1); lia).
    lia.
Qed.

Lemma round_matchups_length (team_ids : list Z) (r : nat) :
  length (round_matchups (bye_padded team_ids) r) = (length team_ids / 2)%nat.
Proof.
  unfold round_matchups.
  set (c := circle (bye_padded team_ids) r).
  pose proof (length_omap_both (fold_pairs c)) as Hsum.
  pose proof (none_pairs_bounds (fold_pairs c)) as Hbounds.
  assert (sides (fold_pairs c) ≡ₚ bye_padded team_ids) as Hperm.
  { rewrite sides_fold_pairs; [apply circle_Permutation|].
    subst c. rewrite length_circle. apply bye_padded_even. }
  rewrite Hperm, bye_padded_nones in Hbounds.
  rewrite length_fold_pairs in Hsum.
  assert (length c = length (bye_padded team_ids)) as Hc
    by (subst c; apply length_circle).
  rewrite Hc in Hsum.
  pose proof (bye_padded_half team_ids) as Hhalf.
  destruct (bye_padded_cases team_ids) as [[_ Heq]|[_ Heq]]; rewrite Heq in *.
  - rewrite length_fmap in *. lia.
  - rewrite length_app, length_fmap in *. simpl in *. lia.
Qed.

(** X4: every week of the schedule holds exactly [len(team_ids) // 2]
    matchups, whatever the team list, and each of them is a two-element list
    of ids taken from [team_ids]; the bye placeholder never shows. *)
Theorem generate_round_robin_week_size (team_ids : list Z) (weeks : Z) :
  ∃ schedule,
    generate_round_robin team_ids weeks = Ok schedule
    ∧ ∀ key ms, schedule !! key = Some ms →
        length ms = (length team_ids / 2)%nat
        ∧ ∀ p, p ∈ ms → ∃ a b, p = [a; b] ∧ a ∈ team_ids ∧ b ∈ team_ids.
Proof.
  eexists. split; [apply generate_round_robin_spec|].
  intros key ms (w & _ & _ & ->)%schedule_of_lookup_Some.
  split; [apply round_matchups_length|]. intros p Hp.
  pose proof (proj1 (Forall_forall _ _) (both_pairs _) p Hp) as (a & b & ->).
  exists a, b. split; [done|].
  apply pair_in_fold in Hp as (i & j & Hi & Hj & _).
  split; apply bye_padded_Some; rewrite <-(circle_Permutation _ (round_of (length (bye_padded team_ids)) w));
    by eapply list_elem_of_lookup_2.
Qed.

(** X5: with an even number of teams nobody has a bye: every team of the
    list is in a pair of every week. *)
Theorem generate_round_robin_even_no_bye (team_ids : list Z) (weeks : Z) :
  Nat.Even (length team_ids) →
  ∃ schedule,
    generate_round_robin team_ids weeks = Ok schedule
    ∧ ∀ key ms t, schedule !! key = Some ms → t ∈ team_ids → ¬ has_bye t ms.
Proof.
  intros Hev. eexists. split; [apply generate_round_robin_spec|].
  intros key ms t (w & _ & _ & ->)%schedule_of_lookup_Some Ht Hbye.
  apply Hbye. clear Hbye.
  destruct (bye_padded_cases team_ids) as [[_ Hteams]|[[k Hk] _]];
    [|destruct Hev as [k' Hk']; lia].
  unfold round_matchups.
  set (c := circle (bye_padded team_ids) (round_of (length (bye_padded team_ids)) w)).
  assert (c ≡ₚ Some <$> team_ids) as Hperm
    by (subst c; by rewrite circle_Permutation, Hteams).
  assert (Nat.Even (length c)) as Hevc by (by rewrite Hperm, length_fmap).
  assert (Some t ∈ c) as [i Hi]%list_elem_of_lookup.
  { rewrite Hperm. by apply list_elem_of_fmap_2. }
  pose proof (lookup_lt_Some _ _ _ Hi) as Hlt.
  destruct (lookup_lt_is_Some_2 c (length c - 1 - i)) as [y Hy]; [lia|].
  assert (∃ b, y = Some b) as [b ->].
  { apply list_elem_of_lookup_2 in Hy. rewrite Hperm in Hy.
    apply list_elem_of_fmap in Hy as (b & -> & _). by exists b. }
  destruct (across_in_fold c t b Hevc) as [Hin|Hin].
  { exists i, (length c - 1 - i)%nat. split_and!; [done..|lia]. }
  all: apply list_elem_of_join; eexists; split; [|exact Hin]; repeat constructor.
Qed.

Lemma generate_round_robin_even_no_bye_witness :
  Nat.Even (length [3; 1; 4; 2])
  ∧ ∃ schedule,
      generate_round_robin [3; 1; 4; 2] 6 = Ok schedule
      ∧ ∀ key ms t, schedule !! key = Some ms → t ∈ [3; 1; 4; 2] → ¬ has_bye t ms.
Proof.
  assert (Nat.Even (length [3; 1; 4; 2])) as Hev by (exists 2%nat; reflexivity).
  split; [exact Hev|]. exact (generate_round_robin_even_no_bye [3; 1; 4; 2] 6 Hev).
Defined.
(** ** Every pair meets *)

Lemma bye_padded_lookup (team_ids : list Z) (q : nat) (t : Z) :
  team_ids !! q = Some t → bye_padded team_ids !! q = Some (Some t).
Proof.
  intros Hq. destruct (bye_padded_cases team_ids) as [[_ ->]|[_ ->]].
  - by rewrite list_lookup_fmap, Hq.
  - rewrite lookup_app_l by (rewrite length_fmap; by eapply lookup_lt_Some).
    by rewrite list_lookup_fmap, Hq.
Qed.

Lemma schedule_of_meet_once (team_ids : list Z) (weeks s : Z) (a b : Z) :
  NoDup team_ids →
  1 ≤ s → s + (adjusted_count team_ids - 1) - 1 ≤ weeks →
  a ∈ team_ids → b ∈ team_ids → a ≠ b →
  sum_list ((λ w, games_between a b (week_of (schedule_of (bye_padded team_ids) weeks) w))
              <$> seqZ s (adjusted_count team_ids - 1))
  = 1%nat.
Proof.
  intros Hnd Hs Hend [qa Ha]%list_elem_of_lookup [qb Hb]%list_elem_of_lookup Hab.
  unfold adjusted_count in *.
  pose proof (lookup_lt_Some _ _ _ Ha) as Hqa.
  pose proof (lookup_lt_Some _ _ _ Hb) as Hqb.
  apply bye_padded_lookup in Ha, Hb.
  pose proof (lookup_lt_Some _ _ _ Ha) as Hqa'.
  pose proof (lookup_lt_Some _ _ _ Hb) as Hqb'.
  pose proof (bye_padded_NoDup team_ids Hnd) as Hndt.
  pose proof (bye_padded_even team_ids) as [k Hk].
  set (teams := bye_padded team_ids) in *.
  destruct (length teams) as [|m] eqn:Hm; [lia|].
  assert (Nat.Odd m) as Hodd by (exists (k - 1)%nat; lia).
  replace (Z.of_nat (S m) - 1) with (Z.of_nat m) in * by lia.
  set (Q w := (seat m (round_of (S m) w) qa + seat m (round_of (S m) w) qb = m)%nat).
  rewrite (sum_indicator _ Q).
  - apply (window_exactly_one m s qa qb); [done| |lia|lia|done].
    intros ->. simplify_eq.
  - intros w Hw%elem_of_seqZ.
    rewrite week_of_schedule_of by lia. rewrite Hm.
    apply (round_matchups_games _ m); [done..| |done|done].
    apply round_of_lt. destruct Hodd as [k' ->]. lia.
Qed.

(** X6: for distinct team ids, of either parity, any two distinct teams meet
    exactly once in every [n - 1] consecutive weeks of the output, [n] being
    the adjusted team count. *)
Theorem generate_round_robin_meet_once (team_ids : list Z) (weeks s : Z) (a b : Z) :
  NoDup team_ids →
  1 ≤ s → s + (adjusted_count team_ids - 1) - 1 ≤ weeks →
  a ∈ team_ids → b ∈ team_ids → a ≠ b →
  ∃ schedule,
    generate_round_robin team_ids weeks = Ok schedule
    ∧ sum_list ((λ w, games_between a b (week_of schedule w))
                  <$> seqZ s (adjusted_count team_ids - 1))
      = 1%nat.
Proof.
  intros Hnd Hs Hend Ha Hb Hab.
  eexists. split; [apply generate_round_robin_spec|].
  by apply schedule_of_meet_once.
Qed.

Lemma generate_round_robin_meet_once_witness :
  NoDup [1; 2; 3; 4; 5] ∧ 1 ≤ 3 ∧ 3 + (adjusted_count [1; 2; 3; 4; 5] - 1) - 1 ≤ 13
  ∧ 2 ∈ [1; 2; 3; 4; 5] ∧ 5 ∈ [1; 2; 3; 4; 5] ∧ 2 ≠ 5
  ∧ ∃ schedule,
      generate_round_robin [1; 2; 3; 4; 5] 13 = Ok schedule
      ∧ sum_list ((λ w, games_between 2 5 (week_of schedule w))
                    <$> seqZ 3 (adjusted_count [1; 2; 3; 4; 5] - 1))
        = 1%nat.
Proof.
  assert (NoDup [1; 2; 3; 4; 5]) as Hnd by (apply (bool_decide_unpack _); vm_compute; exact I).
  assert (1 ≤ 3) as Hs by lia.
  assert (3 + (adjusted_count [1; 2; 3; 4; 5] - 1) - 1 ≤ 13) as Hend
    by (vm_compute; discriminate).
  assert (2 ∈ [1; 2; 3; 4; 5]) as Ha by (apply (bool_decide_unpack _); vm_compute; exact I).
  assert (5 ∈ [1; 2; 3; 4; 5]) as Hb by (apply (bool_decide_unpack _); vm_compute; exact I).
  assert (2 ≠ 5) as Hab by discriminate.
  split_and!; [exact Hnd|exact Hs|exact Hend|exact Ha|exact Hb|exact Hab|].
  exact (generate_round_robin_meet_once [1; 2; 3; 4; 5] 13 3 2 5 Hnd Hs Hend Ha Hb Hab).
Defined.

Lemma sum_list_pos_elem (l : list nat) :
  (0 < sum_list l)%nat → ∃ x, x ∈ l ∧ (0 < x)%nat.
Proof.
  induction l as [|x l IH]; simpl; [lia|]. intros Hsum.
  destruct (decide (0 < x)%nat) as [Hx|Hx].
  - exists x. split; [by left|done].
  - destruct IH as (y & Hy & Hpos); [lia|]. exists y. split; [by right|done].
Qed.

(** X7: the docstring of the generator, "each team plays every other team at
    least once", holds whenever the schedule has at least [n - 1] weeks, [n]
    the adjusted team count: any two distinct teams are paired in some week. *)
Theorem generate_round_robin_everyone_meets (team_ids : list Z) (weeks : Z) (a b : Z) :
  NoDup team_ids → adjusted_count team_ids - 1 ≤ weeks →
  a ∈ team_ids → b ∈ team_ids → a ≠ b →
  ∃ schedule,
    generate_round_robin team_ids weeks = Ok schedule
    ∧ ∃ w ms, 1 ≤ w ≤ weeks ∧ schedule !! str w = Some ms
              ∧ ([a; b] ∈ ms ∨ [b; a] ∈ ms).
Proof.
  intros Hnd Hweeks Ha Hb Hab.
  assert (sum_list ((λ w, games_between a b (week_of (schedule_of (bye_padded team_ids) weeks) w))
              <$> seqZ 1 (adjusted_count team_ids - 1)) = 1%nat) as Hsum
    by (apply schedule_of_meet_once; done || lia).
  eexists. split; [apply generate_round_robin_spec|].
  destruct (sum_list_pos_elem _ ltac:(rewrite Hsum; lia)) as (x & Hx & Hpos).
  apply list_elem_of_fmap in Hx as (w & -> & Hw%elem_of_seqZ).
  exists w, (week_of (schedule_of (bye_padded team_ids) weeks) w).
  split; [lia|]. split.
  - unfold week_of. by rewrite schedule_of_lookup by lia.
  - unfold games_between in Hpos.
    destruct (filter _ _) as [|p ps] eqn:Hf; [simpl in Hpos; lia|].
    assert (p ∈ filter (meets a b) (week_of (schedule_of (bye_padded team_ids) weeks) w))
      as [[-> | ->] Hin]%list_elem_of_filter by (rewrite Hf; left); eauto.
Qed.

Lemma generate_round_robin_everyone_meets_witness :
  NoDup [11; 22; 33] ∧ adjusted_count [11; 22; 33] - 1 ≤ 3
  ∧ 11 ∈ [11; 22; 33] ∧ 33 ∈ [11; 22; 33] ∧ 11 ≠ 33
  ∧ ∃ schedule,
      generate_round_robin [11; 22; 33] 3 = Ok schedule
      ∧ ∃ w ms, 1 ≤ w ≤ 3 ∧ schedule !! str w = Some ms
                ∧ ([11; 33] ∈ ms ∨ [33; 11] ∈ ms).
Proof.
  assert (NoDup [11; 22; 33]) as Hnd by (apply (bool_decide_unpack _); vm_compute; exact I).
  assert (adjusted_count [11; 22; 33] - 1 ≤ 3) as Hweeks by (vm_compute; discriminate).
  assert (11 ∈ [11; 22; 33]) as Ha by (apply (bool_decide_unpack _); vm_compute; exact I).
  assert (33 ∈ [11; 22; 33]) as Hb by (apply (bool_decide_unpack _); vm_compute; exact I).
  assert (11 ≠ 33) as Hab by discriminate.
  split_and!; [exact Hnd|exact Hweeks|exact Ha|exact Hb|exact Hab|].
  exact (generate_round_robin_everyone_meets [11; 22; 33] 3 11 33 Hnd Hweeks Ha Hb Hab).
Defined.

(** X8: with an even number of teams the first team of the list never moves:
    every week opens with a matchup whose first side is that team. *)
Theorem generate_round_robin_first_team_fixed
    (t0 : Z) (others : list Z) (weeks : Z) :
  Nat.Even (length (t0 :: others)) →
  ∃ schedule,
    generate_round_robin (t0 :: others) weeks = Ok schedule
    ∧ ∀ key ms, schedule !! key = Some ms → ∃ x ms', ms = [t0; x] :: ms'.
Proof.
  intros Hev. eexists. split; [apply generate_round_robin_spec|].
  intros key ms (w & _ & _ & ->)%schedule_of_lookup_Some.
  destruct (bye_padded_cases (t0 :: others)) as [[_ Hteams]|[[k Hk] _]];
    [|destruct Hev as [k' Hk']; lia].
  rewrite Hteams. unfold round_matchups.
  set (r := round_of _ w). set (c := circle (Some <$> t0 :: others) r).
  assert (c ≡ₚ Some <$> t0 :: others) as Hperm by apply circle_Permutation.
  assert (c !! 0%nat = Some (Some t0)) as Hc0 by done.
  destruct Hev as [k Hk].
  assert (length c = (2 * k)%nat) as Hlen by (by rewrite Hperm, length_fmap).
  assert (0 < k)%nat as Hk0 by (simpl in Hk; lia).
  destruct (lookup_lt_is_Some_2 c (length c - 1 - 0)) as [y Hy]; [lia|].
  assert (∃ x, y = Some x) as [x ->].
  { apply list_elem_of_lookup_2 in Hy. rewrite Hperm in Hy.
    apply list_elem_of_fmap in Hy as (x & -> & _). by exists x. }
  assert (fold_pairs c !! 0%nat = Some (Some t0, Some x)) as Hhead.
  { rewrite fold_pairs_lookup, Hc0, Hy; [done|].
    rewrite Hlen, (Nat.mul_comm 2 k), Nat.div_mul by lia. done. }
  destruct (fold_pairs c) as [|p ps]; simplify_eq/=. eauto.
Qed.

Lemma generate_round_robin_first_team_fixed_witness :
  Nat.Even (length (9 :: [4; 6; 2]))
  ∧ ∃ schedule,
      generate_round_robin (9 :: [4; 6; 2]) 5 = Ok schedule
      ∧ ∀ key ms, schedule !! key = Some ms → ∃ x ms', ms = [9; x] :: ms'.
Proof.
  assert (Nat.Even (length (9 :: [4; 6; 2]))) as Hev by (exists 2%nat; reflexivity).
  split; [exact Hev|]. exact (generate_round_robin_first_team_fixed 9 [4; 6; 2] 5 Hev).
Defined.
(** * WeeklyAggregator: further properties *)

Lemma collect_boxes_raises (boxes : list BoxScore) (acc : gmap Z Q * list Matchup) :
  Exists (λ box, box_ids box = None) boxes →
  for_in boxes
    (λ '(scores, espn_matchups) box,
       home_id ← team_id_of (home_team box);
       away_id ← team_id_of (away_team box);
       Ok (<[away_id := away_score box]> (<[home_id := home_score box]> scores),
           espn_matchups ++ [[home_id; away_id]]))
    acc
  = Raise AttributeError.
Proof.
  revert acc. induction boxes as [|box boxes IH]; intros [scores espn] Hex.
  { by apply Exists_nil in Hex. }
  cbn [for_in]. unfold box_ids in Hex, IH.
  destruct (home_team box) as [h|] eqn:Hh; [|done].
  destruct (away_team box) as [a|] eqn:Ha; [|done].
  cbn [team_id_of mbind result_bind]. apply IH.
  apply Exists_cons in Hex as [Hex|Hex]; [|done].
  by rewrite Hh, Ha in Hex.
Qed.

Lemma box_ids_cases (boxes : list BoxScore) :
  Forall (λ box, is_Some (box_ids box)) boxes
  ∨ Exists (λ box, box_ids box = None) boxes.
Proof.
  induction boxes as [|box boxes [IH|IH]].
  - left. constructor.
  - destruct (box_ids box) eqn:Hb.
    + left. constructor; [by rewrite Hb|done].
    + right. by left.
  - right. by right.
Qed.

(** X9: [get_weekly_data] raises exactly when the provider call raises (the
    same error) or some box score has a side that is not a team object
    ([AttributeError]); either way the week was requested from the provider
    once. *)
Theorem get_weekly_data_failure (league : League) (w : Z) (tr : list event) (e : exn) :
  ((get_weekly_data league w tr).1 = Raise e
   ↔ box_scores league w = Raise e
     ∨ ∃ boxes, box_scores league w = Ok boxes ∧ e = AttributeError
                ∧ Exists (λ box, box_ids box = None) boxes)
  ∧ (get_weekly_data league w tr).2 = tr ++ [Fetch w].
Proof.
  rewrite get_weekly_data_run. simpl. split; [|done].
  unfold week_outcome. destruct (box_scores league w) as [boxes|e'] eqn:Hfetch; simpl.
  - destruct (box_ids_cases boxes) as [Hall|Hex].
    + destruct (collect_boxes_loop boxes ∅ [] Hall) as (scores & Hloop & _).
      unfold collect_boxes. rewrite Hloop. simpl. split; [done|].
      intros [[=]|(boxes' & [= <-] & _ & Hex)].
      apply Exists_exists in Hex as (box & Hin & Hnone).
      apply (proj1 (Forall_forall _ _) Hall) in Hin as [? Hsome]. congruence.
    + unfold collect_boxes. rewrite collect_boxes_raises by done. simpl. split.
      * intros [= <-]. right. by exists boxes.
      * intros [[=]|(? & _ & -> & _)]. done.
  - split.
    + intros [= ->]. by left.
    + intros [[= ->]|(? & [=] & _)]. done.
Qed.

(** ** The scores mapping *)

Lemma collect_boxes_entries (boxes : list BoxScore)
    (scores0 : gmap Z Q) (espn0 : list Matchup) :
  Forall (λ box, is_Some (box_ids box)) boxes →
  for_in boxes
    (λ '(scores, espn_matchups) box,
       home_id ← team_id_of (home_team box);
       away_id ← team_id_of (away_team box);
       Ok (<[away_id := away_score box]> (<[home_id := home_score box]> scores),
           espn_matchups ++ [[home_id; away_id]]))
    (scores0, espn0)
  = Ok (foldl put_score scores0 (boxes ≫= box_entries),
        espn0 ++ omap box_ids boxes).
Proof.
  revert scores0 espn0. induction boxes as [|box boxes IH]; intros scores0 espn0 Hall.
  { simpl. by rewrite app_nil_r. }
  apply Forall_cons in Hall as [[ids Hids] Hall].
  assert (∃ h a, home_team box = TeamObj h ∧ away_team box = TeamObj a
                 ∧ ids = [h; a]) as (h & a & Hh & Ha & ->).
  { unfold box_ids in Hids.
    destruct (home_team box), (away_team box); simplify_eq; eauto. }
  cbn [for_in]. rewrite Hh, Ha. cbn [team_id_of mbind result_bind].
  rewrite IH by done. cbn [omap list_omap mbind list_bind]. rewrite Hids.
  unfold box_entries at 2. rewrite Hh, Ha. simpl.
  by rewrite <-(assoc_L (++)).
Qed.

Lemma put_score_untouched (entries : list (Z * Q)) (scores : gmap Z Q) (t : Z) :
  t ∉ entries.*1 → foldl put_score scores entries !! t = scores !! t.
Proof.
  revert scores. induction entries as [|[k v] entries IH]; intros scores Ht; [done|].
  simpl. rewrite IH.
  - unfold put_score. simpl. apply lookup_insert_ne. intros ->. apply Ht. by left.
  - intros Hin. apply Ht. by right.
Qed.

Lemma put_score_last (l1 l2 : list (Z * Q)) (scores : gmap Z Q) (t : Z) (s : Q) :
  t ∉ l2.*1 → foldl put_score scores (l1 ++ (t, s) :: l2) !! t = Some s.
Proof.
  intros Ht. rewrite foldl_app. simpl. rewrite put_score_untouched by done.
  unfold put_score. simpl. apply lookup_insert_eq.
Qed.
(** X10: when a team id occurs in several box scores of a week, the score
    kept for it is the one written last, in provider order (home side before
    away side within a box score). *)
Theorem get_weekly_data_last_write_wins (league : League) (w : Z)
    (boxes : list BoxScore) (tr : list event)
    (l1 l2 : list (Z * Q)) (t : Z) (s : Q) :
  box_scores league w = Ok boxes →
  Forall (λ box, is_Some (box_ids box)) boxes →
  (boxes ≫= box_entries) = l1 ++ (t, s) :: l2 → t ∉ l2.*1 →
  ∃ r, (get_weekly_data league w tr).1 = Ok r ∧ scores r !! t = Some s.
Proof.
  intros Hfetch Hall Hsplit Ht. eexists.
  rewrite get_weekly_data_run. unfold week_outcome, collect_boxes.
  rewrite Hfetch. simpl. rewrite collect_boxes_entries by done. simpl.
  split; [done|]. simpl. rewrite Hsplit. by apply put_score_last.
Qed.

Lemma get_weekly_data_last_write_wins_witness :
  let boxes := [ {| home_team := TeamObj 1; home_score := 100;
                    away_team := TeamObj 2; away_score := 90 |};
                 {| home_team := TeamObj 3; home_score := 80;
                    away_team := TeamObj 1; away_score := 70 |} ] in
  let league := {| current_week := 1; box_scores := λ _, Ok boxes |} in
  box_scores league 1 = Ok boxes
  ∧ Forall (λ box, is_Some (box_ids box)) boxes
  ∧ (boxes ≫= box_entries) = [(1, 100%Q); (2, 90%Q); (3, 80%Q)] ++ [(1, 70%Q)]
  ∧ (1 ∉ fst <$> @nil (Z * Q))
  ∧ ∃ r, (get_weekly_data league 1 []).1 = Ok r ∧ scores r !! 1 = Some 70%Q.
Proof.
  intros boxes league.
  assert (box_scores league 1 = Ok boxes) as Hfetch by reflexivity.
  assert (Forall (λ box, is_Some (box_ids box)) boxes) as Hall
    by (repeat constructor; by eexists).
  assert ((boxes ≫= box_entries) = [(1, 100%Q); (2, 90%Q); (3, 80%Q)] ++ [(1, 70%Q)])
    as Hsplit by reflexivity.
  assert (1 ∉ fst <$> @nil (Z * Q)) as Ht by (simpl; apply not_elem_of_nil).
  split_and!; [exact Hfetch|exact Hall|exact Hsplit|exact Ht|].
  exact (get_weekly_data_last_write_wins league 1 boxes [] _ _ 1 70%Q Hfetch Hall Hsplit Ht).
Defined.

(** X11: when the team ids of a week's box scores are pairwise distinct,
    the scores mapping holds, for every box score, the home score under the
    home id and the away score under the away id. *)
Theorem get_weekly_data_scores (league : League) (w : Z)
    (boxes : list BoxScore) (tr : list event) :
  box_scores league w = Ok boxes →
  Forall (λ box, is_Some (box_ids box)) boxes →
  NoDup (boxes ≫= box_entries).*1 →
  ∃ r,
    (get_weekly_data league w tr).1 = Ok r
    ∧ ∀ box h a, box ∈ boxes → box_ids box = Some [h; a] →
        scores r !! h = Some (home_score box)
        ∧ scores r !! a = Some (away_score box).
Proof.
  intros Hfetch Hall Hnd. eexists.
  rewrite get_weekly_data_run. unfold week_outcome, collect_boxes.
  rewrite Hfetch. simpl. rewrite collect_boxes_entries by done. simpl.
  split; [done|]. simpl. intros box h a Hin Hids.
  assert (∀ t s, (t, s) ∈ boxes ≫= box_entries →
                 foldl put_score ∅ (boxes ≫= box_entries) !! t = Some s) as Hstored.
  { intros t s (l1 & l2 & Hsplit)%list_elem_of_split. rewrite Hsplit.
    apply put_score_last. rewrite Hsplit in Hnd.
    rewrite fmap_app, fmap_cons in Hnd.
    apply NoDup_app in Hnd as (_ & _ & Hnd). by apply NoDup_cons in Hnd as [? _]. }
  assert (box_entries box = [(h, home_score box); (a, away_score box)]) as Hentries.
  { unfold box_ids in Hids. unfold box_entries.
    destruct (home_team box), (away_team box); by simplify_eq. }
  split; apply Hstored, list_elem_of_bind; exists box; rewrite Hentries;
    (split; [repeat constructor|done]).
Qed.

Lemma get_weekly_data_scores_witness :
  let boxes := [ {| home_team := TeamObj 1; home_score := 100;
                    away_team := TeamObj 2; away_score := 90 |};
                 {| home_team := TeamObj 3; home_score := 80;
                    away_team := TeamObj 4; away_score := 70 |} ] in
  let league := {| current_week := 1; box_scores := λ _, Ok boxes |} in
  box_scores league 1 = Ok boxes
  ∧ Forall (λ box, is_Some (box_ids box)) boxes
  ∧ NoDup (boxes ≫= box_entries).*1
  ∧ ∃ r,
      (get_weekly_data league 1 []).1 = Ok r
      ∧ ∀ box h a, box ∈ boxes → box_ids box = Some [h; a] →
          scores r !! h = Some (home_score box)
          ∧ scores r !! a = Some (away_score box).
Proof.
  intros boxes league.
  assert (box_scores league 1 = Ok boxes) as Hfetch by reflexivity.
  assert (Forall (λ box, is_Some (box_ids box)) boxes) as Hall
    by (repeat constructor; by eexists).
  assert (NoDup (boxes ≫= box_entries).*1) as Hnd
    by (apply (bool_decide_unpack _); vm_compute; exact I).
  split_and!; [exact Hfetch|exact Hall|exact Hnd|].
  exact (get_weekly_data_scores league 1 boxes [] Hfetch Hall Hnd).
Defined.
(** * SeasonAggregator: further properties *)

Lemma season_accounting (league : League) (ws : list Z) :
  (length (omap (included league) ws)
   + length (filter (λ w, week_fails league w) ws)
   + length (filter (λ w, week_unplayed league w) ws))%nat
  = length ws.
Proof.
  induction ws as [|w ws IH]; [done|].
  rewrite !filter_cons. csimpl.
  assert (included league w
          = match week_outcome league w with
            | Ok r => if any_positive (scores r) then Some r else None
            | Raise _ => None
            end) as Hinc by done.
  assert (week_fails league w
          = match week_outcome league w with Ok _ => false | Raise _ => true end)
    as Hfail by done.
  assert (week_unplayed league w
          = match week_outcome league w with
            | Ok r => negb (any_positive (scores r))
            | Raise _ => false
            end) as Hun by done.
  destruct (week_outcome league w) as [r|e];
    [destruct (any_positive (scores r))|];
    rewrite Hinc; repeat case_decide;
    rewrite ?Hfail, ?Hun in *; simpl in *; try done; lia.
Qed.

Lemma printed_week_events (league : League) (ws : list Z) :
  printed (ws ≫= week_events league)
  = omap (λ w, match week_outcome league w with
               | Ok _ => None
               | Raise e => Some (w, e)
               end) ws.
Proof.
  induction ws as [|w ws IH]; [done|].
  cbn [mbind list_bind]. unfold printed in *. rewrite omap_app, IH. csimpl.
  unfold week_events. by destruct (week_outcome league w).
Qed.

(** X12: every week the season loop visits ends in exactly one of three
    ways: its result is appended, it raised (then it is reported once on the
    console, with its error, in week order), or it returned without a score
    above zero; nothing else is printed. *)
Theorem season_week_accounting (league : League) (tr : list event) :
  let ws := seqZ 1 (Z.min (current_week league) REGULAR_SEASON_WEEKS) in
  ∃ out events,
    get_all_weekly_data league tr = (Ok out, tr ++ events)
    ∧ (length out
       + length (filter (λ w, week_fails league w) ws)
       + length (filter (λ w, week_unplayed league w) ws))%nat
      = length ws
    ∧ printed events
      = omap (λ w, match week_outcome league w with
                   | Ok _ => None
                   | Raise e => Some (w, e)
                   end) ws
    ∧ (printed events).*1 = filter (λ w, week_fails league w) ws.
Proof.
  intros ws. do 2 eexists. split; [apply get_all_weekly_data_run|].
  fold (upper_bound league). change (seqZ 1 (upper_bound league)) with ws.
  split; [apply season_accounting|].
  rewrite printed_week_events. split; [done|].
  clear. induction ws as [|w ws IH]; [done|].
  rewrite filter_cons. cbn [omap list_omap].
  assert (week_fails league w
          = match week_outcome league w with Ok _ => false | Raise _ => true end)
    as Hfail by done.
  destruct (week_outcome league w) as [r|e]; case_decide as Hd;
    rewrite Hfail in Hd; simpl in Hd; try done.
  rewrite fmap_cons. simpl. f_equal. exact IH.
Qed.
(** * ScheduleStore: saving and reading back *)

(** X13: a saved schedule is read back unchanged, whatever the file held
    before (a save replaces the file, the last save wins), provided the
    decoder inverts the encoder on it; no other file is touched. *)
Theorem save_load_round_trip (json_load : string → result json)
    (json_dump : json → string) (schedule : json) (fs : Files) :
  json_load (json_dump schedule) = Ok schedule →
  load_schedule json_load (save_schedule json_dump schedule fs) = Ok schedule
  ∧ (∀ earlier,
       load_schedule json_load
         (save_schedule json_dump schedule (save_schedule json_dump earlier fs))
       = Ok schedule)
  ∧ (∀ path, path ≠ SCHEDULE_FILE →
       save_schedule json_dump schedule fs !! path = fs !! path).
Proof.
  intros Hinv. unfold load_schedule, save_schedule. split_and!.
  - by rewrite lookup_insert_eq.
  - intros earlier. by rewrite lookup_insert_eq.
  - intros path Hpath. by rewrite lookup_insert_ne.
Qed.

Lemma save_load_round_trip_witness :
  Json.loads (JsonDump.dumps (of_schedule default_schedule))
  = Ok (of_schedule default_schedule)
  ∧ load_schedule Json.loads
      (save_schedule JsonDump.dumps (of_schedule default_schedule)
         (<[SCHEDULE_FILE := "{"]> ∅))
    = Ok (of_schedule default_schedule).
Proof.
  assert (Json.loads (JsonDump.dumps (of_schedule default_schedule))
          = Ok (of_schedule default_schedule)) as Hinv by (vm_compute; reflexivity).
  split; [exact Hinv|].
  exact (proj1 (save_load_round_trip Json.loads JsonDump.dumps _
                  (<[SCHEDULE_FILE := "{"]> ∅) Hinv)).
Defined.

(** X14: [POST /api/schedule] stores whatever JSON body it is given, without
    checking its shape, and answers 200 echoing it; from then on
    [GET /api/schedule] returns that body, never the default schedule
    (provided the decoder inverts the encoder on the body). *)
Theorem update_then_get_schedule (json_load : string → result json)
    (json_dump : json → string) (body : json) (fs : Files) :
  json_load (json_dump body) = Ok body →
  (update_schedule json_dump body fs).2 = (Saved body, 200)
  ∧ get_schedule json_load (update_schedule json_dump body fs).1 = Ok body.
Proof.
  intros Hinv. unfold update_schedule, get_schedule, load_schedule, save_schedule.
  simpl. split; [done|]. by rewrite lookup_insert_eq, Hinv.
Qed.

Lemma update_then_get_schedule_witness :
  Json.loads (JsonDump.dumps JNull) = Ok JNull
  ∧ (update_schedule JsonDump.dumps JNull ∅).2 = (Saved JNull, 200)
  ∧ get_schedule Json.loads (update_schedule JsonDump.dumps JNull ∅).1 = Ok JNull.
Proof.
  assert (Json.loads (JsonDump.dumps JNull) = Ok JNull) as Hinv
    by (vm_compute; reflexivity).
  split; [exact Hinv|].
  exact (update_then_get_schedule Json.loads JsonDump.dumps JNull ∅ Hinv).
Defined.

(** * Teams *)

Lemma resolve_owner_ok (team : ProviderTeam) :
  resolve_owner team = Ok (reported_owner team).
Proof.
  unfold resolve_owner, reported_owner.
  destruct (owners team) as [v|]; [|done].
  destruct v as [|b|z|s|l|d]; simpl.
  - done.
  - by destruct b.
  - by destruct (z =? 0).
  - by destruct s.
  - destruct l as [|first l]; [done|].
    change (getitem (first :: l) 0) with (getitem (first :: l) (Z.of_nat 0)).
    by rewrite (getitem_nat (first :: l) 0 first).
  - by destruct (map_to_list d).
Qed.

Lemma get_teams_loop (ts : list ProviderTeam) (acc : list TeamInfo) :
  for_in ts
    (λ teams team,
       owner ← resolve_owner team;
       Ok (teams ++ [ {| info_id := team_id team;
                         info_name := team_name team;
                         info_abbrev := team_abbrev team;
                         info_owner := owner |} ]))
    acc
  = Ok (acc ++ ((λ team, {| info_id := team_id team;
                            info_name := team_name team;
                            info_abbrev := team_abbrev team;
                            info_owner := reported_owner team |}) <$> ts)).
Proof.
  revert acc. induction ts as [|team ts IH]; intros acc.
  { simpl. by rewrite app_nil_r. }
  cbn [for_in]. rewrite resolve_owner_ok. cbn [mbind result_bind].
  rewrite IH. csimpl. by rewrite <-(assoc_L (++)).
Qed.

(** X15: [get_teams] never raises, not even on a team whose [owners] list is
    empty or whose owner attributes are missing; it returns one record per
    team, in provider order, with the team's id, name and abbreviation, and
    as owner the first element of a non-empty [owners] list, else a truthy
    non-list [owners], else the [owner] attribute, else "Unknown". *)
Theorem get_teams_total (league : FullLeague) :
  ∃ infos,
    get_teams league = Ok infos
    ∧ length infos = length (teams league)
    ∧ ∀ i team, teams league !! i = Some team →
        ∃ info, infos !! i = Some info
                ∧ info_id info = team_id team
                ∧ info_name info = team_name team
                ∧ info_abbrev info = team_abbrev team
                ∧ info_owner info = reported_owner team
                ∧ (owners team = Some (JList []) → owner team = None →
                   info_owner info = JStr "Unknown").
Proof.
  eexists. split; [apply get_teams_loop|]. simpl. split; [apply length_fmap|].
  intros i team Hteam. eexists. rewrite list_lookup_fmap, Hteam. simpl.
  split_and!; try done.
  intros Hown Hnone. unfold reported_owner, owner_fallback. by rewrite Hown, Hnone.
Qed.

Lemma get_teams_total_witness :
  let team := {| team_id := 7; team_name := "Sleepers"; team_abbrev := "SLP";
                 owners := Some (JList []); owner := None |} in
  let league := {| core := {| current_week := 1; box_scores := λ _, Ok [] |};
                   teams := [team] |} in
  teams league !! 0%nat = Some team
  ∧ owners team = Some (JList []) ∧ owner team = None
  ∧ ∃ infos info,
      get_teams league = Ok infos ∧ infos !! 0%nat = Some info
      ∧ info_id info = 7 ∧ info_owner info = JStr "Unknown".
Proof.
  intros team league.
  assert (teams league !! 0%nat = Some team) as Hteam by reflexivity.
  assert (owners team = Some (JList [])) as Hown by reflexivity.
  assert (owner team = None) as Hnone by reflexivity.
  split; [exact Hteam|]. split; [exact Hown|]. split; [exact Hnone|].
  destruct (get_teams_total league) as (infos & Hrun & _ & Hall).
  destruct (Hall 0%nat team Hteam) as (info & Hinfo & Hid & _ & _ & _ & Hunknown).
  exists infos, info. split_and!; [exact Hrun|exact Hinfo|exact Hid|].
  exact (Hunknown Hown Hnone).
Defined.
(** * Routes *)

Section route_lemmas.
Variable cfg : Config.
Variable connect : league_request → result FullLeague.
Variable json_load : string → result json.

Lemma league_info_run (fs : Files) (tr : list event) :
  league_info cfg connect json_load fs tr
  = match get_league cfg connect with
    | Raise e => (Ok (ErrorBody e, 500), tr)
    | Ok league =>
        match load_schedule json_load fs with
        | Raise e => (Ok (ErrorBody e, 500), tr)
        | Ok schedule =>
            match get_teams league with
            | Raise e => (Ok (ErrorBody e, 500), tr)
            | Ok infos =>
                (Ok (LeagueInfo "Master's League" YEAR REGULAR_SEASON_WEEKS
                       (Z.min (current_week (core league)) REGULAR_SEASON_WEEKS)
                       infos
                       (omap (included (core league))
                          (seqZ 1 (upper_bound (core league))))
                       schedule, 200),
                 tr ++ (seqZ 1 (upper_bound (core league))
                          ≫= week_events (core league)))
            end
        end
    end.
Proof.
  unfold league_info, try_except, server_error, lift.
  unfold mbind at 1, io_bind at 1.
  destruct (get_league cfg connect) as [league|e]; [|done].
  unfold mbind at 1, io_bind at 1.
  destruct (load_schedule json_load fs) as [schedule|e]; [|done].
  unfold mbind at 1, io_bind at 1.
  destruct (get_teams league) as [infos|e]; [|done].
  unfold mbind at 1, io_bind at 1.
  by rewrite get_all_weekly_data_run.
Qed.

End route_lemmas.

(** X16: [GET /api/league] never raises.  It answers 500 with the error when
    connecting to the provider or reading the schedule file raises, without
    requesting any week; otherwise it answers 200 whatever weeks fail, with
    the current week clamped to the regular season, one record per team and
    the weeks the season aggregator returns. *)
Theorem league_info_outcome (cfg : Config)
    (connect : league_request → result FullLeague)
    (json_load : string → result json) (fs : Files) (tr : list event) :
  (∀ e, get_league cfg connect = Raise e →
        league_info cfg connect json_load fs tr = (Ok (ErrorBody e, 500), tr))
  ∧ (∀ league e, get_league cfg connect = Ok league →
        load_schedule json_load fs = Raise e →
        league_info cfg connect json_load fs tr = (Ok (ErrorBody e, 500), tr))
  ∧ (∀ league schedule, get_league cfg connect = Ok league →
        load_schedule json_load fs = Ok schedule →
        ∃ infos weeks events,
          league_info cfg connect json_load fs tr
          = (Ok (LeagueInfo "Master's League" YEAR REGULAR_SEASON_WEEKS
                   (Z.min (current_week (core league)) REGULAR_SEASON_WEEKS)
                   infos weeks schedule, 200),
             tr ++ events)
          ∧ length infos = length (teams league)
          ∧ get_all_weekly_data (core league) tr = (Ok weeks, tr ++ events)
          ∧ Z.min (current_week (core league)) REGULAR_SEASON_WEEKS ≤ 13).
Proof.
  split_and!.
  - intros e He. by rewrite league_info_run, He.
  - intros league e Hl He. by rewrite league_info_run, Hl, He.
  - intros league schedule Hl Hs.
    pose proof (get_teams_loop (teams league) []) as Hteams.
    fold (get_teams league) in Hteams.
    do 3 eexists. rewrite league_info_run, Hl, Hs, Hteams.
    split; [done|]. split; [simpl; by rewrite length_fmap|].
    split; [by rewrite get_all_weekly_data_run|].
    unfold REGULAR_SEASON_WEEKS. lia.
Qed.

Lemma week_data_run (cfg : Config) (connect : league_request → result FullLeague)
    (week : Z) (tr : list event) :
  week_data cfg connect week tr
  = match get_league cfg connect with
    | Raise e => (Ok (ErrorBody e, 500), tr)
    | Ok league =>
        (Ok match week_outcome (core league) week with
            | Ok data => (WeekInfo data, 200)
            | Raise e => (ErrorBody e, 500)
            end,
         tr ++ [Fetch week])
    end.
Proof.
  unfold week_data, try_except, server_error, lift.
  unfold mbind at 1, io_bind at 1.
  destruct (get_league cfg connect) as [league|e]; [|done].
  unfold mbind at 1, io_bind at 1. rewrite get_weekly_data_run.
  by destruct (week_outcome (core league) week).
Qed.

(** X17: [GET /api/week/<week>] never raises and does not check the week
    number: once connected it requests exactly that week from the provider,
    whatever its value, and answers 200 with the week's data, or 500 with the
    error when the provider call or the aggregation raises; when connecting
    raises it answers 500 without any request. *)
Theorem week_data_outcome (cfg : Config)
    (connect : league_request → result FullLeague) (week : Z) (tr : list event) :
  (∀ e, get_league cfg connect = Raise e →
        week_data cfg connect week tr = (Ok (ErrorBody e, 500), tr))
  ∧ (∀ league, get_league cfg connect = Ok league →
        ∃ response,
          week_data cfg connect week tr = (Ok response, tr ++ [Fetch week])
          ∧ (∀ data, response = (WeekInfo data, 200)
                     ↔ (get_weekly_data (core league) week tr).1 = Ok data)
          ∧ (∀ e, response = (ErrorBody e, 500)
                  ↔ (get_weekly_data (core league) week tr).1 = Raise e)).
Proof.
  split.
  - intros e He. by rewrite week_data_run, He.
  - intros league Hl. eexists. rewrite week_data_run, Hl. split; [done|].
    rewrite get_weekly_data_run. simpl.
    destruct (week_outcome (core league) week) as [data|e]; split.
    + intros data'. split; by intros [= ->].
    + intros e'. split; by intros [=].
    + intros data'. split; by intros [=].
    + intros e'. split; by intros [= ->].
Qed.

Lemma generate_schedule_run (cfg : Config)
    (connect : league_request → result FullLeague) (tr : list event) :
  generate_schedule cfg connect tr
  = match get_league cfg connect with
    | Raise e => (Ok (ErrorBody e, 500), tr)
    | Ok league =>
        (Ok (Generated (schedule_of (bye_padded (team_id <$> teams league))
                          REGULAR_SEASON_WEEKS), 200), tr)
    end.
Proof.
  unfold generate_schedule, try_except, server_error, lift.
  unfold mbind at 1, io_bind at 1.
  destruct (get_league cfg connect) as [league|e]; [|done].
  unfold mbind at 1, io_bind at 1.
  by rewrite generate_round_robin_spec.
Qed.

(** X18: once connected, [GET /api/schedule/generate] always answers 200:
    the generator cannot fail on any team list.  The schedule has an entry
    for exactly the keys "1" .. "13", it requests no week from the provider,
    and when the provider's team ids are distinct every week satisfies the
    schedule invariant. *)
Theorem generate_schedule_outcome (cfg : Config)
    (connect : league_request → result FullLeague)
    (league : FullLeague) (tr : list event) :
  get_league cfg connect = Ok league →
  ∃ schedule,
    generate_schedule cfg connect tr = (Ok (Generated schedule, 200), tr)
    ∧ generate_round_robin (team_id <$> teams league) REGULAR_SEASON_WEEKS
      = Ok schedule
    ∧ (∀ key, is_Some (schedule !! key) ↔ ∃ w, 1 ≤ w ≤ 13 ∧ key = str w)
    ∧ (NoDup (team_id <$> teams league) → schedule_invariant schedule).
Proof.
  intros Hl. eexists. rewrite generate_schedule_run, Hl.
  split; [done|]. split; [apply generate_round_robin_spec|]. split.
  - intros key. split.
    + intros [ms (w & Hw & -> & _)%schedule_of_lookup_Some]. eauto.
    + intros (w & Hw & ->). rewrite schedule_of_lookup by done. by eexists.
  - intros Hnd key ms (w & _ & _ & ->)%schedule_of_lookup_Some.
    apply round_matchups_invariant.
    + by apply bye_padded_NoDup.
    + apply bye_padded_even.
Qed.

Lemma generate_schedule_outcome_witness :
  let cfg := {| LEAGUE_ID := 123456; ESPN_S2 := String.EmptyString;
                SWID := String.EmptyString |} in
  let team i := {| team_id := i; team_name := "Team"; team_abbrev := "T";
                   owners := Some (JList []); owner := None |} in
  let league := {| core := {| current_week := 3; box_scores := λ _, Ok [] |};
                   teams := [team 1; team 2; team 3] |} in
  let connect := λ _ : league_request, Ok league in
  get_league cfg connect = Ok league
  ∧ ∃ schedule,
      generate_schedule cfg connect [] = (Ok (Generated schedule, 200), [])
      ∧ generate_round_robin (team_id <$> teams league) REGULAR_SEASON_WEEKS
        = Ok schedule
      ∧ (∀ key, is_Some (schedule !! key) ↔ ∃ w, 1 ≤ w ≤ 13 ∧ key = str w)
      ∧ (NoDup (team_id <$> teams league) → schedule_invariant schedule).
Proof.
  intros cfg team league connect.
  assert (get_league cfg connect = Ok league) as Hl by reflexivity.
  split; [exact Hl|].
  exact (generate_schedule_outcome cfg connect league [] Hl).
Defined.

Lemma week_data_outcome_witness :
  let cfg := {| LEAGUE_ID := 123456; ESPN_S2 := "s2"; SWID := "{swid}" |} in
  let boxes := [ {| home_team := TeamObj 1; home_score := 100;
                    away_team := NoTeam; away_score := 0 |} ] in
  let league := {| core := {| current_week := 3; box_scores := λ _, Ok boxes |};
                   teams := [] |} in
  let connect := λ _ : league_request, Ok league in
  get_league cfg connect = Ok league
  ∧ week_data cfg connect 99 [] = (Ok (ErrorBody AttributeError, 500), [Fetch 99]).
Proof.
  intros cfg boxes league connect.
  assert (get_league cfg connect = Ok league) as Hl by reflexivity.
  split; [exact Hl|].
  destruct (proj2 (week_data_outcome cfg connect 99 []) league Hl)
    as (response & Hrun & _ & Herr).
  rewrite Hrun. simpl. f_equal. f_equal.
  by apply Herr.
Defined.

Lemma league_info_outcome_witness :
  let cfg := {| LEAGUE_ID := 123456; ESPN_S2 := String.EmptyString;
                SWID := String.EmptyString |} in
  let league := {| core := {| current_week := 17;
                              box_scores := λ _, Raise (ProviderError "down") |};
                   teams := [] |} in
  let connect := λ _ : league_request, Ok league in
  let fs : Files := <[SCHEDULE_FILE := "[1, 2"]> ∅ in
  get_league cfg connect = Ok league
  ∧ load_schedule Json.loads fs = Raise JSONDecodeError
  ∧ league_info cfg connect Json.loads fs [] = (Ok (ErrorBody JSONDecodeError, 500), [])
  ∧ load_schedule Json.loads ∅ = Ok (of_schedule default_schedule)
  ∧ ∃ infos weeks events,
      league_info cfg connect Json.loads ∅ []
      = (Ok (LeagueInfo "Master's League" YEAR REGULAR_SEASON_WEEKS
               (Z.min (current_week (core league)) REGULAR_SEASON_WEEKS)
               infos weeks (of_schedule default_schedule), 200),
         [] ++ events).
Proof.
  intros cfg league connect fs.
  assert (get_league cfg connect = Ok league) as Hl by reflexivity.
  assert (load_schedule Json.loads fs = Raise JSONDecodeError) as Hbad
    by (vm_compute; reflexivity).
  assert (load_schedule Json.loads ∅ = Ok (of_schedule default_schedule)) as Hgood
    by reflexivity.
  split; [exact Hl|]. split; [exact Hbad|].
  split; [exact (proj1 (proj2 (league_info_outcome cfg connect Json.loads fs []))
                   league _ Hl Hbad)|].
  split; [exact Hgood|].
  destruct (proj2 (proj2 (league_info_outcome cfg connect Json.loads ∅ []))
              league _ Hl Hgood) as (infos & weeks & events & Hrun & _).
  by exists infos, weeks, events.
Defined.
